(** * Verification of [packages/preserve/lib/preserve.ts]

    A shallow embedding of the [preserve] orchestration function: registry
    validation, the breadth-first planner and the sequential executor,
    followed by the properties of the specification, each one settled
    against the embedding. *)

From Stdlib Require Import String List Arith Lia.
From stdpp Require Import base gmap sets list strings.

Local Open Scope string_scope.
Local Open Scope list_scope.
Local Open Scope nat_scope.

(** ** JavaScript [Map]

    A [Map<string, V>] keeps its keys in insertion order, and that order is
    observable ([Array.from(modules.keys())]), so a map is an association
    list.  [get] answers with the first binding of a key; [set] overwrites a
    binding in place and appends a new key at the end. *)

Module JsMap.

Definition t (V : Type) : Type := list (string * V).

Definition empty {V : Type} : t V := [].

Fixpoint get {V : Type} (m : t V) (key : string) : option V :=
  match m with
  | [] => None
  | (k, v) :: m' => if decide (k = key) then Some v else get m' key
  end.

Definition has {V : Type} (m : t V) (key : string) : bool :=
  match get m key with
  | Some _ => true
  | None => false
  end.

Definition keys {V : Type} (m : t V) : list string := map fst m.

Fixpoint set {V : Type} (m : t V) (key : string) (value : V) : t V :=
  match m with
  | [] => [(key, value)]
  | (k, v) :: m' =>
      if decide (k = key) then (key, value) :: m'
      else (k, v) :: set m' key value
  end.

End JsMap.

(** ** The collaborators of [preserve]

    [./processes], [./recipes] and [./targets] are imported by the source
    but are not part of it.  Their types are taken as an interface. *)

Module Processes.

(** Modelled from the spec: the [Event] union (section 3, "Event"), which
    [preserve.ts] imports from [./processes] and whose declaration is not
    among the sources.  [preserve] only forwards events; it never builds or
    inspects one. *)
Inductive Event (any : Type) : Type :=
| Begin (scope : list string)
| Log (scope : list string) (message : string)
| DeclareStep (scope : list string) (step : string)
| StepStatus (scope : list string) (step : string) (status : string)
| Succeed (scope : list string) (label : any)
| Fail (scope : list string) (error : any).

Arguments Begin {any} scope.
Arguments Log {any} scope message.
Arguments DeclareStep {any} scope step.
Arguments StepStatus {any} scope step status.
Arguments Succeed {any} scope label.
Arguments Fail {any} scope error.

(** [Processes.Steps.Controller].  An instance is built with a scope that
    never changes; everything else it holds is its mutable [Internals].
    Each generator method is a function from the internals before the call
    to the events it yields and the internals after it; none of them is
    taken to throw.  [log], [declare] and [step] are only handed to the
    recipe, which is a function of the controller as a whole (see
    [Recipe.Context]). *)
Class Steps (any : Type) : Type := {
  Internals : Type;
  State : Type;
  Done : State;
  State_eq_dec :: EqDecision State;
  (** [new Controller({ scope })] *)
  fresh : list string -> Internals;
  begin : list string -> Internals -> list (Event any) * Internals;
  succeed : list string -> Internals -> any -> list (Event any) * Internals;
  fail : list string -> Internals -> any -> list (Event any) * Internals;
  (** [controller.state] *)
  state : Internals -> State;
}.

End Processes.

Import Processes.

Module Loader.

(** [load(settings)] either resolves to a target or rejects with an
    error.  [None] is the [undefined] that [Map.get] gives for a plugin
    without settings. *)
Record t (any Target : Type) : Type := {
  load : option any -> Target + any;
}.

Arguments load {any Target} _ _.

End Loader.

Module Recipe.

Section Recipe.

Context {any : Type} {Target : Type} `{Steps any}.

(** The argument of [recipe.preserve]: target, labels, settings and the
    three controller-bound capabilities, which stand for the controller
    they are bound to.  [labels] is the executor's own [Map], not a copy:
    the recipe holds a reference to it. *)
Record Context : Type := {
  target : Target;
  labels : JsMap.t any;
  settings : option any;
  scope : list string;
  controller : Internals;
}.

(** One complete drive of the generator returned by [recipe.preserve]:
    the values it yields, then either the label it returns or the error
    it throws, and what it has made by then of the two objects it shares
    with the executor: the controller, through its [log] / [declare] /
    [step] calls, and the labels map.  A recipe that never completes has no
    such run and is outside the model. *)
Record Preserves : Type := {
  yielded : list (Event any);
  completion : any + any;
  controller_after : Internals;
  labels_after : JsMap.t any;
}.

Record t : Type := {
  name : string;
  dependencies : list string;
  preserve : Context -> Preserves;
}.

End Recipe.

Arguments Context any Target {_}.
Arguments Preserves any {_}.
Arguments t any Target {_}.

End Recipe.

(** ** Errors *)

Inductive Error (any : Type) : Type :=
| JsError (message : string)          (* [new Error(message)] *)
| TypeError (property : string)       (* reading [property] of [undefined] *)
| Rejected (reason : any).            (* thrown by a plugin *)

Arguments JsError {any} message.
Arguments TypeError {any} property.
Arguments Rejected {any} reason.

Inductive Outcome (any A : Type) : Type :=
| Returns (a : A)
| Throws (e : Error any).

Arguments Returns {any A} a.
Arguments Throws {any A} e.

(** ** Registry validation *)

Section Validation.

Context {any T : Type}.

Definition assertModuleExists
    (name : string) (kind : option string) (modules : JsMap.t T)
  : Outcome any unit :=
  let kind := default "module" kind in
  if negb (JsMap.has modules name) then
    Throws (JsError
      (("Unknown " +:+ kind +:+ " with name " +:+ name +:+ ". ") +:+
       ("Possible choices: [" +:+
          String.concat ", " (JsMap.keys modules) +:+ "]")))
  else Returns tt.

Definition assertLoaderExists (name : string) (modules : JsMap.t T)
  : Outcome any unit :=
  assertModuleExists name (Some "loader") modules.

Definition assertRecipeExists (name : string) (modules : JsMap.t T)
  : Outcome any unit :=
  assertModuleExists name (Some "recipe") modules.

End Validation.

(** ** Planning *)

Section Planning.

Context {any : Type} {Target : Type} `{Steps any}.

Abbreviation Recipe := (Recipe.t any Target).

(** The body of [for (const name of unvisited)]. *)
Definition enqueue (vq : gset string * list string) (name : string)
  : gset string * list string :=
  ({[ name ]} ∪ vq.1, vq.2 ++ [name]).

(** The [while (queue.length > 0)] loop.  [fuel] bounds the number of
    iterations; [None] means the bound was reached with the queue still
    non-empty. *)
Fixpoint plan_loop (fuel : nat) (recipes : JsMap.t Recipe)
    (visited : gset string) (queue : list string) (plan : list Recipe)
  : option (Outcome any (list Recipe)) :=
  match queue with
  | [] => Some (Returns plan)
  | first :: queue =>
      match fuel with
      | 0 => None
      | S fuel =>
          match JsMap.get recipes first with
          | None => Some (Throws (TypeError "name"))
          | Some current =>
              match assertRecipeExists (Recipe.name current) recipes with
              | Throws e => Some (Throws e)
              | Returns _ =>
                  let plan := current :: plan in
                  let unvisited :=
                    filter (λ dependency, dependency ∉ visited)
                           (Recipe.dependencies current) in
                  let vq := foldl enqueue (visited, queue) unvisited in
                  plan_loop fuel recipes vq.1 vq.2 plan
              end
          end
      end
  end.

(** Every name that occurs in a dependency list of the registry. *)
Definition all_dependencies (recipes : JsMap.t Recipe) : list string :=
  concat (map (λ kr, Recipe.dependencies kr.2) recipes).

(** Iterations still to come are bounded by the queue plus, for every
    dependency name not visited yet, the longest burst it can enqueue. *)
Definition plan_measure (recipes : JsMap.t Recipe)
    (visited : gset string) (queue : list string) : nat :=
  length queue +
  S (length (all_dependencies recipes)) *
    size (list_to_set (all_dependencies recipes) ∖ visited : gset string).

(** Lines 47-69: [visited] starts empty, [queue] holds the root's name. *)
Definition planning (recipes : JsMap.t Recipe) (root : string)
  : option (Outcome any (list Recipe)) :=
  plan_loop (S (plan_measure recipes ∅ [root])) recipes ∅ [root] [].

(** *** The recipe graph *)

(** [name] lists [dependency]. *)
Definition depends (recipes : JsMap.t Recipe) (name dependency : string)
  : Prop :=
  ∃ recipe, JsMap.get recipes name = Some recipe ∧
            dependency ∈ Recipe.dependencies recipe.

(** [name] is the root or one of its direct or transitive dependencies. *)
Definition requires (recipes : JsMap.t Recipe) : string → string → Prop :=
  rtc (depends recipes).

(** The name is a key of the registry, and so is the [name] field of the
    recipe found under it (the one the check of line 54 is given). *)
Definition registered (recipes : JsMap.t Recipe) (name : string) : Prop :=
  ∃ recipe, JsMap.get recipes name = Some recipe ∧
            JsMap.has recipes (Recipe.name recipe) = true.

(** Section 3: a recipe is "registered in a mapping keyed by name". *)
Definition keyed_by_name (recipes : JsMap.t Recipe) : Prop :=
  ∀ key recipe, JsMap.get recipes key = Some recipe → Recipe.name recipe = key.

Definition looked_up (recipes : JsMap.t Recipe)
    (names : list string) (found : list Recipe) : Prop :=
  Forall2 (λ name recipe, JsMap.get recipes name = Some recipe) names found.

(** What a loop that returns has done from a given state: it has dequeued
    the queue and then [more], found [dequeued] under these names and put
    them in front of the plan, last one first. *)
Definition dequeues (recipes : JsMap.t Recipe) (visited : gset string)
    (queue : list string) (plan result : list Recipe)
    (more : list string) (dequeued : list Recipe) : Prop :=
  looked_up recipes (queue ++ more) dequeued ∧
  result = rev dequeued ++ plan ∧
  (∀ r d, r ∈ dequeued → d ∈ Recipe.dependencies r → d ∈ visited ∨ d ∈ more) ∧
  (∀ d, d ∈ more →
     (d ∉ visited) ∧ (∃ r, r ∈ dequeued ∧ d ∈ Recipe.dependencies r)) ∧
  (∀ P : string → Prop,
     (∀ n d, P n → depends recipes n d → P d) → Forall P queue → Forall P more) ∧
  ((∀ r, r ∈ dequeued → NoDup (Recipe.dependencies r)) → NoDup more).

(** The diamond of section 4.2, in any registry that holds it. *)
Definition diamond (recipes : JsMap.t Recipe) (a b c d : Recipe) : Prop :=
  JsMap.get recipes "a" = Some a ∧ Recipe.name a = "a" ∧
  (Recipe.dependencies a = ["b"; "c"] ∨ Recipe.dependencies a = ["c"; "b"]) ∧
  JsMap.get recipes "b" = Some b ∧ Recipe.name b = "b" ∧
  Recipe.dependencies b = ["d"] ∧
  JsMap.get recipes "c" = Some c ∧ Recipe.name c = "c" ∧
  Recipe.dependencies c = ["d"] ∧
  JsMap.get recipes "d" = Some d ∧ Recipe.name d = "d" ∧
  Recipe.dependencies d = [].

End Planning.

(** ** Execution *)

(** What a run does to the outside world, in order: the calls it makes on
    its plugins and the events it hands to its consumer. *)
Inductive Action (any : Type) : Type :=
| Load (loader : string) (settings : option any)   (* [loader.load(settings)] *)
| Preserve (recipe : string)                       (* [recipe.preserve(...)] *)
| Yield (event : Event any).                       (* [yield] *)

Arguments Load {any} loader settings.
Arguments Preserve {any} recipe.
Arguments Yield {any} event.

(** The two [return] statements of the loop body: the one of the [catch]
    block (line 115) and the one under the [Done] test (line 123). *)
Inductive Stop : Type := Failed | NotDone.

(** How a stretch of the generator body was left without an exception: off
    its end, or by one of the two [return]s. *)
Inductive Halt : Type :=
| Completed
| Stopped (stop : Stop).

Section Execution.

Context {any : Type} {Target : Type} `{Steps any}.

Abbreviation Recipe := (Recipe.t any Target).

Record Execution : Type := {
  trace : list (Action any);
  final_labels : JsMap.t any;
  halt : Halt;
}.

(** The body of [for (const recipe of plan)], lines 77-126.  The labels
    map it goes on with is the one it handed to the recipe, as the recipe
    left it. *)
Definition execute_recipe (target : Target) (request_settings : JsMap.t any)
    (labels : JsMap.t any) (recipe : Recipe) : Execution :=
  let settings := JsMap.get request_settings (Recipe.name recipe) in
  let scope := [Recipe.name recipe] in
  let controller := fresh scope in
  let '(begun, controller) := begin scope controller in
  let preserves :=
    Recipe.preserve recipe
      {| Recipe.target := target;
         Recipe.labels := labels;
         Recipe.settings := settings;
         Recipe.scope := scope;
         Recipe.controller := controller |} in
  let controller := Recipe.controller_after preserves in
  let labels := Recipe.labels_after preserves in
  let driven :=
    map Yield begun ++ Preserve (Recipe.name recipe) ::
    map Yield (Recipe.yielded preserves) in
  match Recipe.completion preserves with
  | inr error =>
      let '(failed, _) := fail scope controller error in
      {| trace := driven ++ map Yield failed;
         final_labels := labels;
         halt := Stopped Failed |}
  | inl label =>
      let '(succeeded, controller) := succeed scope controller label in
      if decide (state controller ≠ Done) then
        {| trace := driven ++ map Yield succeeded;
           final_labels := labels;
           halt := Stopped NotDone |}
      else
        {| trace := driven ++ map Yield succeeded;
           final_labels := JsMap.set labels (Recipe.name recipe) label;
           halt := Completed |}
  end.

(** The [for] loop over the plan, lines 74-127. *)
Fixpoint execution (target : Target) (request_settings : JsMap.t any)
    (labels : JsMap.t any) (plan : list Recipe) : Execution :=
  match plan with
  | [] => {| trace := []; final_labels := labels; halt := Completed |}
  | recipe :: plan =>
      let body := execute_recipe target request_settings labels recipe in
      match halt body with
      | Stopped _ => body
      | Completed =>
          let rest :=
            execution target request_settings (final_labels body) plan in
          {| trace := trace body ++ trace rest;
             final_labels := final_labels rest;
             halt := halt rest |}
      end
  end.

End Execution.

Arguments Execution any : clear implicits.

(** ** [preserve] *)

(** An optional property of an object: missing, present and [undefined],
    or present with a value. *)
Inductive Optional (A : Type) : Type :=
| Missing
| Undefined
| Defined (a : A).

Arguments Missing {A}.
Arguments Undefined {A}.
Arguments Defined {A} a.

Module Request.

Record t (any : Type) : Type := {
  loader : string;
  recipe : string;
  settings : Optional (JsMap.t any);
}.

Arguments loader {any} _.
Arguments recipe {any} _.
Arguments settings {any} _.

End Request.

Section Preserve.

Context {any : Type} {Target : Type} `{Steps any}.

Abbreviation Request := (Request.t any).
Abbreviation Loader := (Loader.t any Target).
Abbreviation Recipe := (Recipe.t any Target).

Record PreserveOptions : Type := {
  request : Request;
  loaders : JsMap.t Loader;
  recipes : JsMap.t Recipe;
}.

(** A run of the generator to its end: the request object as the run
    leaves it, the actions in order, the last value of [labels], and
    whether the body returned or threw. *)
Record Run : Type := {
  request_after : Request;
  actions : list (Action any);
  labels_after : JsMap.t any;
  outcome : Outcome any Halt;
}.

(** Lines 22-24: the request object is updated in place. *)
Definition default_settings (request : Request) : Request :=
  match Request.settings request with
  | Missing =>
      {| Request.loader := Request.loader request;
         Request.recipe := Request.recipe request;
         Request.settings := Defined JsMap.empty |}
  | _ => request
  end.

(** [None] only if the planning loop exhausts its iteration bound, which
    [preserve_total] shows never to happen. *)
Definition preserve (options : PreserveOptions) : option Run :=
  let request := default_settings (request options) in
  let threw done e :=
    Some {| request_after := request; actions := done;
            labels_after := JsMap.empty; outcome := Throws e |} in
  match assertLoaderExists (Request.loader request) (loaders options) with
  | Throws e => threw [] e
  | Returns _ =>
      let loader := JsMap.get (loaders options) (Request.loader request) in
      let recipe := JsMap.get (recipes options) (Request.recipe request) in
      match Request.settings request with
      | Defined settings =>
          let loaderSettings := JsMap.get settings (Request.loader request) in
          match loader with
          | None => threw [] (TypeError "load")
          | Some loader =>
              let loading := [Load (Request.loader request) loaderSettings] in
              match Loader.load loader loaderSettings with
              | inr reason => threw loading (Rejected reason)
              | inl target =>
                  match recipe with
                  | None => threw loading (TypeError "name")
                  | Some recipe =>
                      match planning (recipes options) (Recipe.name recipe) with
                      | None => None
                      | Some (Throws e) => threw loading e
                      | Some (Returns plan) =>
                          let run := execution target settings JsMap.empty plan in
                          Some {| request_after := request;
                                  actions := loading ++ trace run;
                                  labels_after := final_labels run;
                                  outcome := Returns (halt run) |}
                      end
                  end
              end
          end
      | _ => threw [] (TypeError "get")
      end
  end.

End Preserve.

Arguments PreserveOptions any Target {_}.
Arguments Run any : clear implicits.

(** ** Observing a run *)

Section Observations.

Context {any : Type} {Target : Type} `{Steps any}.

Abbreviation Recipe := (Recipe.t any Target).

(** The recipes whose [preserve] was called, in call order. *)
Definition invoked (done : list (Action any)) : list string :=
  omap (λ action,
          match action with Preserve recipe => Some recipe | _ => None end)
       done.

(** The events handed to the consumer, in order. *)
Definition emitted (done : list (Action any)) : list (Event any) :=
  omap (λ action,
          match action with Yield event => Some event | _ => None end)
       done.

(** [controller.begin()] on the controller made for a recipe. *)
Definition begins (recipe : Recipe) : list (Event any) * Internals :=
  begin [Recipe.name recipe] (fresh [Recipe.name recipe]).

(** The recipe's computation as the loop body drives it. *)
Definition drives (target : Target) (request_settings labels : JsMap.t any)
    (recipe : Recipe) : Recipe.Preserves any :=
  Recipe.preserve recipe
    {| Recipe.target := target;
       Recipe.labels := labels;
       Recipe.settings := JsMap.get request_settings (Recipe.name recipe);
       Recipe.scope := [Recipe.name recipe];
       Recipe.controller := (begins recipe).2 |}.

(** [controller.succeed({ label })] and [controller.fail({ error })] after
    the recipe's computation. *)
Definition succeeds (recipe : Recipe) (preserves : Recipe.Preserves any)
    (label : any) : list (Event any) * Internals :=
  succeed [Recipe.name recipe] (Recipe.controller_after preserves) label.

Definition fails (recipe : Recipe) (preserves : Recipe.Preserves any)
    (error : any) : list (Event any) * Internals :=
  fail [Recipe.name recipe] (Recipe.controller_after preserves) error.

(** Modelled from the spec: the part of the behaviour of the Step
    Controller ([Processes.Steps.Controller], whose source is not among the
    sources) that the event stream contract relies on (section 4.3 step 5,
    "emit the controller's succeed event carrying the label", and section
    4.4).  A controller is not [Done] when it has just begun, and a
    [succeed] that takes a controller to [Done] yields, last, the [Succeed]
    event of its scope with the label.  A controller that is [Done] already
    is left alone ("will only do anything if still in active state", line
    119). *)
Definition succeed_emits_Succeed : Prop :=
  (∀ scope, state (begin scope (fresh scope)).2 ≠ Done) ∧
  (∀ scope controller label,
     state controller ≠ Done →
     state (succeed scope controller label).2 = Done →
     ∃ events,
       (succeed scope controller label).1 = events ++ [Succeed scope label]).

(** A recipe holds [log], [declare] and [step] only: its computation
    cannot take its controller to [Done]. *)
Definition leaves_open (recipe : Recipe) : Prop :=
  ∀ context,
    state (Recipe.controller context) ≠ Done →
    state (Recipe.controller_after (Recipe.preserve recipe context)) ≠ Done.

(** Section 5: "recipes only ever read" the labels.  A recipe that keeps
    to it leaves the map it was handed as it found it. *)
Definition reads_labels_only (recipe : Recipe) : Prop :=
  ∀ context,
    Recipe.labels_after (Recipe.preserve recipe context) =
    Recipe.labels context.

End Observations.

(** ** Example plugins

    The scenarios of section 8 of the specification, with strings for the
    opaque values. *)

Module Examples.

(** A small step controller: it begins [Active]; [succeed] ends an active
    controller and does nothing to any other; a controller with a declared
    step still running is [Blocked]. *)
Inductive Lifecycle : Type := Pending | Active | Blocked | Errored | Ended.

#[export] Instance Lifecycle_eq_dec : EqDecision Lifecycle.
Proof. solve_decision. Defined.

#[export] Instance lifecycle : Steps string := {|
  Internals := Lifecycle;
  State := Lifecycle;
  Done := Ended;
  fresh _ := Pending;
  begin scope _ := ([Begin scope], Active);
  succeed scope controller label :=
    match controller with
    | Active => ([Succeed scope label], Ended)
    | _ => ([], controller)
    end;
  fail scope _ error := ([Fail scope error], Errored);
  state controller := controller;
|}.

Abbreviation Recipe := (Recipe.t string string).
Abbreviation Loader := (Loader.t string string).

(** A recipe that logs once and returns [label]. *)
Definition returning (name : string) (dependencies : list string)
    (label : string) : Recipe :=
  {| Recipe.name := name;
     Recipe.dependencies := dependencies;
     Recipe.preserve context :=
       {| Recipe.yielded := [Log (Recipe.scope context) "working"];
          Recipe.completion := inl label;
          Recipe.controller_after := Recipe.controller context;
          Recipe.labels_after := Recipe.labels context |} |}.

(** A recipe that logs once and throws [error]. *)
Definition raising (name : string) (dependencies : list string)
    (error : string) : Recipe :=
  {| Recipe.name := name;
     Recipe.dependencies := dependencies;
     Recipe.preserve context :=
       {| Recipe.yielded := [Log (Recipe.scope context) "working"];
          Recipe.completion := inr error;
          Recipe.controller_after := Recipe.controller context;
          Recipe.labels_after := Recipe.labels context |} |}.

(** A recipe that declares a step, never finishes it, and returns
    [label]. *)
Definition unfinished (name : string) (dependencies : list string)
    (label : string) : Recipe :=
  {| Recipe.name := name;
     Recipe.dependencies := dependencies;
     Recipe.preserve context :=
       {| Recipe.yielded := [DeclareStep (Recipe.scope context) "upload"];
          Recipe.completion := inl label;
          Recipe.controller_after := Blocked;
          Recipe.labels_after := Recipe.labels context |} |}.

Definition resolving (target : string) : Loader :=
  {| Loader.load _ := inl target |}.

Definition rejecting (reason : string) : Loader :=
  {| Loader.load _ := inr reason |}.

Definition A : Recipe := returning "A" [] "labelA".
Definition B : Recipe := returning "B" ["A"] "labelB".

(** A registry that holds each recipe under its own name. *)
Definition registry (recipes : list Recipe) : JsMap.t Recipe :=
  map (λ recipe, (Recipe.name recipe, recipe)) recipes.

(** A request object without a [settings] property. *)
Definition asks (loader recipe : string) : Request.t string :=
  {| Request.loader := loader;
     Request.recipe := recipe;
     Request.settings := Missing |}.

(** Request [{loader: L, recipe: B}] over recipes A and B (depends on A). *)
Definition scenario : PreserveOptions string string :=
  {| request := asks "L" "B";
     loaders := [("L", resolving "T")];
     recipes := registry [A; B] |}.

Definition scenario_run : Run string :=
  {| request_after :=
       {| Request.loader := "L"; Request.recipe := "B";
          Request.settings := Defined [] |};
     actions :=
       [Load "L" None;
        Yield (Begin ["A"]); Preserve "A"; Yield (Log ["A"] "working");
        Yield (Succeed ["A"] "labelA");
        Yield (Begin ["B"]); Preserve "B"; Yield (Log ["B"] "working");
        Yield (Succeed ["B"] "labelB")];
     labels_after := [("A", "labelA"); ("B", "labelB")];
     outcome := Returns Completed |}.

(** The same request, naming a recipe "C" that the registry lacks. *)
Definition unknown_root : PreserveOptions string string :=
  {| request := asks "L" "C";
     loaders := [("L", resolving "T")];
     recipes := registry [A; B] |}.

(** B depends on A, and A is not registered. *)
Definition unknown_dependency : PreserveOptions string string :=
  {| request := asks "L" "B";
     loaders := [("L", resolving "T")];
     recipes := registry [B] |}.

(** B lists A twice. *)
Definition repeated_dependency : PreserveOptions string string :=
  {| request := asks "L" "B";
     loaders := [("L", resolving "T")];
     recipes := registry [A; returning "B" ["A"; "A"] "labelB"] |}.

(** The loader rejects. *)
Definition rejected_load : PreserveOptions string string :=
  {| request := asks "L" "B";
     loaders := [("L", rejecting "offline")];
     recipes := registry [A; B] |}.

(** a depends on x and b, b depends on a, and x is not registered. *)
Definition dangling_cycle : JsMap.t Recipe :=
  registry [returning "a" ["x"; "b"] "la"; returning "b" ["a"] "lb"].

(** a depends on itself and throws. *)
Definition raising_loop : JsMap.t Recipe :=
  registry [raising "a" ["a"] "boom"].

(** a depends on itself. *)
Definition loop : JsMap.t Recipe :=
  registry [returning "a" ["a"] "la"].

Definition diamond_registry : JsMap.t Recipe :=
  registry [returning "a" ["b"; "c"] "la"; returning "b" ["d"] "lb";
            returning "c" ["d"] "lc"; returning "d" [] "ld"].

End Examples.

(** * Properties *)

(** ** Maps *)

Section JsMapFacts.

Context {V : Type}.
Implicit Types (m : JsMap.t V) (k : string).

Lemma has_get m k : JsMap.has m k = true ↔ is_Some (JsMap.get m k).
Proof. unfold JsMap.has. destruct (JsMap.get m k); split; done. Qed.

Lemma keys_set m k v x :
  x ∈ JsMap.keys (JsMap.set m k v) ↔ x = k ∨ x ∈ JsMap.keys m.
Proof.
  unfold JsMap.keys. induction m as [|[k' v'] m IH]; simpl.
  - rewrite list_elem_of_singleton, elem_of_nil. tauto.
  - case_decide; subst; simpl; rewrite !elem_of_cons; [tauto|].
    rewrite IH. tauto.
Qed.

Lemma NoDup_keys_set m k v :
  NoDup (JsMap.keys m) → NoDup (JsMap.keys (JsMap.set m k v)).
Proof.
  unfold JsMap.keys. induction m as [|[k' v'] m IH]; simpl; intros Hnd.
  - apply NoDup_singleton.
  - apply NoDup_cons in Hnd as [Hk' Hnd].
    case_decide; subst; simpl.
    + by apply NoDup_cons.
    + apply NoDup_cons. split; [|auto].
      intros Hin. apply (keys_set m k v k') in Hin as [?|?]; done.
Qed.

End JsMapFacts.

(** ** More to observe, and inputs at the edges *)

Section Loads.

Context {any : Type}.

(** The [load] calls of a run, each with the loader's name and the settings
    it was given. *)
Definition loads (done : list (Action any)) : list (string * option any) :=
  omap (λ action,
          match action with
          | Load loader settings => Some (loader, settings)
          | _ => None
          end)
       done.

End Loads.

Section Triangle.

Context {any : Type} {Target : Type} `{Steps any}.

Abbreviation Recipe := (Recipe.t any Target).

(** A root that lists two recipes, the second of which depends on the
    first. *)
Definition triangle (recipes : JsMap.t Recipe)
    (root dependency dependent : Recipe) : Prop :=
  JsMap.get recipes (Recipe.name root) = Some root ∧
  Recipe.dependencies root =
    [Recipe.name dependency; Recipe.name dependent] ∧
  JsMap.get recipes (Recipe.name dependency) = Some dependency ∧
  Recipe.dependencies dependency = [] ∧
  JsMap.get recipes (Recipe.name dependent) = Some dependent ∧
  Recipe.dependencies dependent = [Recipe.name dependency].

End Triangle.

Module Edges.

Import Examples.

(** The request names a loader "M" that the registry of loaders L and K
    lacks. *)
Definition unknown_loader : PreserveOptions string string :=
  {| request := asks "M" "B";
     loaders := [("L", resolving "T"); ("K", resolving "U")];
     recipes := registry [A; B] |}.

(** The request has a [settings] property whose value is [undefined]. *)
Definition undefined_settings : PreserveOptions string string :=
  {| request :=
       {| Request.loader := "L"; Request.recipe := "B";
          Request.settings := Undefined |};
     loaders := [("L", resolving "T")];
     recipes := registry [A; B] |}.

(** The root a is registered under its own name and depends on b; the
    registry holds under "b" a recipe whose [name] is "zz". *)
Definition misnamed_dependency : PreserveOptions string string :=
  {| request := asks "L" "a";
     loaders := [("L", resolving "T")];
     recipes := [("a", returning "a" ["b"] "la");
                 ("b", returning "zz" [] "lb")] |}.

(** a depends on b and c, c depends on b. *)
Definition triangle_registry : JsMap.t Recipe :=
  registry [returning "a" ["b"; "c"] "la"; returning "b" [] "lb";
            returning "c" ["b"] "lc"].

(** A recipe that logs the settings it was given, "none" when it was
    given [undefined], and returns them as its label. *)
Definition echoing (name : string) (dependencies : list string) : Recipe :=
  {| Recipe.name := name;
     Recipe.dependencies := dependencies;
     Recipe.preserve context :=
       {| Recipe.yielded :=
            [Log (Recipe.scope context)
                 (default "none" (Recipe.settings context))];
          Recipe.completion := inl (default "none" (Recipe.settings context));
          Recipe.controller_after := Recipe.controller context;
          Recipe.labels_after := Recipe.labels context |} |}.

(** Settings for a plugin Z and for the plugin E. *)
Definition settings_of_Z_and_E : JsMap.t string :=
  [("Z", "slow"); ("E", "fast")].

(** A recipe that calls [labels.set("Z", "mine")] on the map it was handed,
    logs and returns [label]. *)
Definition writing (name : string) (dependencies : list string)
    (label : string) : Recipe :=
  {| Recipe.name := name;
     Recipe.dependencies := dependencies;
     Recipe.preserve context :=
       {| Recipe.yielded := [Log (Recipe.scope context) "working"];
          Recipe.completion := inl label;
          Recipe.controller_after := Recipe.controller context;
          Recipe.labels_after :=
            JsMap.set (Recipe.labels context) "Z" "mine" |} |}.

(** The scenario with an A that writes to the labels. *)
Definition written_labels : PreserveOptions string string :=
  {| request := asks "L" "B";
     loaders := [("L", resolving "T")];
     recipes := registry [writing "A" [] "labelA"; B] |}.

(** A recipe that logs, leaves its controller ended and returns
    [label]. *)
Definition finishing (name : string) (dependencies : list string)
    (label : string) : Recipe :=
  {| Recipe.name := name;
     Recipe.dependencies := dependencies;
     Recipe.preserve context :=
       {| Recipe.yielded := [Log (Recipe.scope context) "working"];
          Recipe.completion := inl label;
          Recipe.controller_after := Ended;
          Recipe.labels_after := Recipe.labels context |} |}.

(** A request for a root that ends its own controller. *)
Definition finished_early : PreserveOptions string string :=
  {| request := asks "L" "B";
     loaders := [("L", resolving "T")];
     recipes := registry [finishing "B" [] "labelB"] |}.

End Edges.

(** ** The planner *)

Section PlanningFacts.

Context {any : Type} {Target : Type} `{Steps any}.

Abbreviation Recipe := (Recipe.t any Target).

Implicit Types (recipes : JsMap.t Recipe) (visited : gset string)
  (queue more : list string) (plan : list Recipe).

Lemma foldl_enqueue visited queue names :
  foldl enqueue (visited, queue) names =
  (list_to_set names ∪ visited, queue ++ names).
Proof.
  revert visited queue.
  induction names as [|n names IH]; intros visited queue; simpl.
  - f_equal; [by rewrite (left_id_L ∅ (∪)) | by rewrite app_nil_r].
  - change (enqueue (visited, queue) n)
      with ({[n]} ∪ visited, queue ++ [n]).
    rewrite IH. f_equal.
    + by rewrite (assoc_L (∪)), (comm_L (∪) (list_to_set names)).
    + by rewrite <- app_assoc.
Qed.

(** One iteration of the loop, with the [for] loop folded away. *)
Lemma plan_loop_step fuel recipes visited first queue plan current :
  JsMap.get recipes first = Some current →
  JsMap.has recipes (Recipe.name current) = true →
  plan_loop (S fuel) recipes visited (first :: queue) plan =
  let unvisited := filter (λ d, d ∉ visited) (Recipe.dependencies current) in
  plan_loop fuel recipes (list_to_set unvisited ∪ visited)
    (queue ++ unvisited) (current :: plan).
Proof.
  intros Hget Hhas. simpl. rewrite Hget.
  unfold assertRecipeExists, assertModuleExists. rewrite Hhas. simpl.
  by rewrite foldl_enqueue.
Qed.

Lemma dependencies_registered recipes key recipe :
  JsMap.get recipes key = Some recipe →
  Recipe.dependencies recipe ⊆ all_dependencies recipes ∧
  length (Recipe.dependencies recipe) ≤ length (all_dependencies recipes).
Proof.
  unfold all_dependencies.
  induction recipes as [|[k r] recipes IH]; simpl; [done|].
  rewrite length_app. case_decide; intros Hget.
  - simplify_eq. split; [|lia].
    intros d Hd. apply elem_of_app. by left.
  - destruct (IH Hget) as [Hsub Hlen]. split; [|lia].
    intros d Hd. apply elem_of_app. right. by apply Hsub.
Qed.

Lemma plan_measure_step recipes visited first queue current :
  JsMap.get recipes first = Some current →
  let unvisited := filter (λ d, d ∉ visited) (Recipe.dependencies current) in
  plan_measure recipes (list_to_set unvisited ∪ visited) (queue ++ unvisited)
  < plan_measure recipes visited (first :: queue).
Proof.
  intros Hget unvisited. unfold plan_measure.
  destruct (dependencies_registered _ _ _ Hget) as [Hsub Hlen].
  rewrite length_app. simpl length.
  set (universe := list_to_set (all_dependencies recipes) : gset string).
  assert (length unvisited ≤ length (all_dependencies recipes)) as Hburst.
  { etrans; [apply length_filter | done]. }
  destruct unvisited as [|x rest] eqn:Hunv.
  - simpl. rewrite (left_id_L ∅ (∪)). lia.
  - assert (x ∈ unvisited) as Hx by (subst unvisited; rewrite Hunv; left).
    subst unvisited.
    apply list_elem_of_filter in Hx as [Hfresh Hdep].
    assert (universe ∖ (list_to_set (x :: rest) ∪ visited) ⊂ universe ∖ visited)
      as Hless.
    { split.
      - intros y Hy. apply elem_of_difference in Hy as [Hy Hnot].
        apply elem_of_difference. split; [done|].
        intros Hv. apply Hnot, elem_of_union. by right.
      - intros Hback. assert (x ∈ universe ∖ visited) as Hin.
        { apply elem_of_difference. split; [|done].
          apply elem_of_list_to_set. auto. }
        apply Hback, elem_of_difference in Hin as [_ Hnot].
        apply Hnot, elem_of_union. left.
        apply elem_of_list_to_set. left. }
    apply subset_size in Hless. simpl in *. nia.
Qed.

(** The loop always ends: any bound above the measure is enough. *)
Lemma plan_loop_terminates fuel recipes visited queue plan :
  plan_measure recipes visited queue < fuel →
  is_Some (plan_loop fuel recipes visited queue plan).
Proof.
  revert visited queue plan.
  induction fuel as [|fuel IH]; intros visited queue plan Hfuel; [lia|].
  destruct queue as [|first queue]; [by eexists|].
  simpl. destruct (JsMap.get recipes first) as [current|] eqn:Hget;
    [|by eexists].
  destruct (assertRecipeExists _ _); [|by eexists].
  rewrite foldl_enqueue. simpl. apply IH.
  pose proof (plan_measure_step recipes visited first queue current Hget).
  simpl in *. lia.
Qed.

Lemma planning_total recipes root : is_Some (planning recipes root).
Proof. apply plan_loop_terminates. lia. Qed.

Lemma plan_loop_fuel fuel fuel' recipes visited queue plan result :
  plan_loop fuel recipes visited queue plan = Some result →
  fuel ≤ fuel' →
  plan_loop fuel' recipes visited queue plan = Some result.
Proof.
  revert fuel' visited queue plan.
  induction fuel as [|fuel IH]; intros fuel' visited queue plan Hrun Hle.
  - destruct queue; [|done]. by destruct fuel'.
  - destruct fuel' as [|fuel']; [lia|].
    destruct queue as [|first queue]; [done|].
    simpl in *. destruct (JsMap.get recipes first); [|done].
    destruct (assertRecipeExists _ _); [|done].
    apply IH; [done | lia].
Qed.

(** A result reached under any bound is the result of [planning]. *)
Lemma plan_loop_planning fuel recipes root result :
  plan_loop fuel recipes ∅ [root] [] = Some result →
  planning recipes root = Some result.
Proof.
  intros Hrun. destruct (planning_total recipes root) as [result' Hplan].
  rewrite Hplan. f_equal.
  unfold planning in Hplan.
  pose proof (plan_loop_fuel _ (fuel `max` S (plan_measure recipes ∅ [root]))
                _ _ _ _ _ Hrun ltac:(lia)) as H1.
  pose proof (plan_loop_fuel _ (fuel `max` S (plan_measure recipes ∅ [root]))
                _ _ _ _ _ Hplan ltac:(lia)) as H2.
  congruence.
Qed.

Lemma plan_loop_returns_nil recipes visited plan :
  ∃ more dequeued, dequeues recipes visited [] plan plan more dequeued.
Proof.
  exists [], []. split; [constructor|]. split; [done|].
  split; [intros r d Hr; inversion Hr|].
  split; [intros d Hd; inversion Hd|].
  split; intros; constructor.
Qed.

Lemma plan_loop_returns fuel recipes visited queue plan result :
  plan_loop fuel recipes visited queue plan = Some (Returns result) →
  ∃ more dequeued, dequeues recipes visited queue plan result more dequeued.
Proof.
  revert visited queue plan.
  induction fuel as [|fuel IH]; intros visited queue plan Hrun.
  - destruct queue; [|done]. simplify_eq/=. apply plan_loop_returns_nil.
  - destruct queue as [|first queue].
    { simplify_eq/=. apply plan_loop_returns_nil. }
    simpl in Hrun.
    destruct (JsMap.get recipes first) as [current|] eqn:Hget; [|done].
    destruct (assertRecipeExists _ _); [|done].
    rewrite foldl_enqueue in Hrun. simpl in Hrun.
    set (unvisited := filter (λ d, d ∉ visited) (Recipe.dependencies current))
      in *.
    destruct (IH _ _ _ Hrun)
      as (more & dequeued & Hlook & -> & Hclosed & Hfrom & Hinv & Hnodup).
    exists (unvisited ++ more), (current :: dequeued).
    split; [|split; [|split; [|split; [|split]]]].
    + unfold looked_up. simpl. constructor; [done|]. by rewrite app_assoc.
    + simpl. by rewrite <- app_assoc.
    + intros r d Hr Hd. rewrite elem_of_app.
      apply elem_of_cons in Hr as [->|Hr].
      * destruct (decide (d ∈ visited)); [by left|].
        right; left. apply list_elem_of_filter. done.
      * destruct (Hclosed r d Hr Hd) as [Hv|Hm]; [|by right; right].
        apply elem_of_union in Hv as [Hv|Hv]; [|by left].
        right; left. by apply elem_of_list_to_set in Hv.
    + intros d Hd. apply elem_of_app in Hd as [Hd|Hd].
      * apply list_elem_of_filter in Hd as [Hfresh Hd].
        split; [done|]. exists current. split; [left | done].
      * destruct (Hfrom d Hd) as (Hfresh & r & Hr & Hdr).
        split.
        -- intros Hv. apply Hfresh, elem_of_union. by right.
        -- exists r. split; [by right | done].
    + intros P Hstep Hqueue. apply Forall_cons in Hqueue as [Hfirst Hqueue].
      assert (Forall P unvisited) as Hunv.
      { apply Forall_forall. intros d Hd.
        apply list_elem_of_filter in Hd as [_ Hd].
        apply (Hstep first); [done|]. by exists current. }
      apply Forall_app. split; [done|].
      apply Hinv; [done|]. by apply Forall_app.
    + intros Hdeps. apply NoDup_app. split; [|split].
      * apply NoDup_filter, Hdeps. left.
      * intros d Hd Hm. destruct (Hfrom d Hm) as [Hfresh _].
        apply Hfresh, elem_of_union. left. by apply elem_of_list_to_set.
      * apply Hnodup. intros r Hr. apply Hdeps. by right.
Qed.

(** What a successful planning has dequeued: the root, then [more], which
    holds the dependencies of whatever the root requires. *)
Lemma planning_returns recipes root plan :
  planning recipes root = Some (Returns plan) →
  ∃ more dequeued,
    looked_up recipes (root :: more) dequeued ∧
    plan = rev dequeued ∧
    (∀ name, requires recipes root name ↔ name ∈ root :: more) ∧
    (∀ d, d ∈ more ↔ ∃ n, requires recipes root n ∧ depends recipes n d) ∧
    ((∀ r, r ∈ dequeued → NoDup (Recipe.dependencies r)) → NoDup more).
Proof.
  intros Hplan. apply plan_loop_returns in Hplan
    as (more & dequeued & Hlook & -> & Hclosed & Hfrom & Hinv & Hnodup).
  exists more, dequeued. simpl in Hlook.
  assert (Forall (requires recipes root) (root :: more)) as Hsound.
  { constructor; [apply rtc_refl|].
    apply Hinv; [|by constructor; [apply rtc_refl | constructor]].
    intros n d Hn Hd. by eapply rtc_r. }
  assert (∀ n d, n ∈ root :: more → depends recipes n d → d ∈ more)
    as Hstep.
  { intros n d Hn (r & Hget & Hd).
    apply list_elem_of_lookup in Hn as [i Hi].
    destruct (Forall2_lookup_l _ _ _ _ _ Hlook Hi) as (r' & Hr' & Hget').
    simpl in Hget'. simplify_eq.
    destruct (Hclosed r d) as [Hv|Hm];
      [by eapply list_elem_of_lookup_2 | done | | done].
    by apply not_elem_of_empty in Hv. }
  assert (∀ name, requires recipes root name ↔ name ∈ root :: more)
    as Hexact.
  { intros name. split.
    - intros Hreq. unfold requires in Hreq.
      revert name Hreq. apply (rtc_ind_r (λ n, n ∈ root :: more)); [left|].
      intros n d _ Hd Hn. right. by apply (Hstep n).
    - intros Hin. by eapply Forall_forall in Hsound. }
  split; [done|]. split; [by rewrite app_nil_r|].
  split; [done|]. split; [|done].
  intros d. split.
  - intros Hd. destruct (Hfrom d Hd) as (_ & r & Hr & Hdr).
    apply list_elem_of_lookup in Hr as [i Hi].
    destruct (Forall2_lookup_r _ _ _ _ _ Hlook Hi) as (n & Hn & Hget).
    exists n. split; [|by exists r].
    apply Hexact. by eapply list_elem_of_lookup_2.
  - intros (n & Hn & Hd). apply (Hstep n); [|done]. by apply Hexact.
Qed.

(** Every entry of a plan was found in the registry. *)
Lemma planning_entries recipes root plan recipe :
  planning recipes root = Some (Returns plan) →
  recipe ∈ plan →
  ∃ key, JsMap.get recipes key = Some recipe.
Proof.
  intros Hplan Hin.
  apply planning_returns in Hplan as (more & dequeued & Hlook & -> & _).
  apply list_elem_of_In, in_rev, list_elem_of_In in Hin.
  apply list_elem_of_lookup in Hin as [i Hi].
  destruct (Forall2_lookup_r _ _ _ _ _ Hlook Hi) as (key & _ & Hget).
  by exists key.
Qed.

(** Planning throws nothing as long as every name it can reach is a key
    of the registry, and so is the [name] field of the recipe found. *)
Lemma plan_loop_succeeds (P : string → Prop) fuel recipes visited queue plan :
  (∀ n, P n → ∃ r, JsMap.get recipes n = Some r ∧
                   JsMap.has recipes (Recipe.name r) = true ∧
                   ∀ d, d ∈ Recipe.dependencies r → P d) →
  Forall P queue →
  plan_measure recipes visited queue < fuel →
  ∃ result, plan_loop fuel recipes visited queue plan = Some (Returns result).
Proof.
  intros Hreg. revert visited queue plan.
  induction fuel as [|fuel IH]; intros visited queue plan Hqueue Hfuel; [lia|].
  destruct queue as [|first queue]; [by eexists|].
  apply Forall_cons in Hqueue as [Hfirst Hqueue].
  destruct (Hreg first Hfirst) as (current & Hget & Hhas & Hdeps).
  rewrite (plan_loop_step _ _ _ _ _ _ _ Hget Hhas). simpl. apply IH.
  - apply Forall_app. split; [done|]. apply Forall_forall.
    intros d Hd. apply list_elem_of_filter in Hd as [_ Hd]. auto.
  - pose proof (plan_measure_step recipes visited first queue current Hget).
    simpl in *. lia.
Qed.

Lemma planning_succeeds recipes root :
  (∀ name, requires recipes root name → registered recipes name) →
  ∃ plan, planning recipes root = Some (Returns plan).
Proof.
  intros Hreg.
  apply (plan_loop_succeeds (requires recipes root));
    [| by constructor; [apply rtc_refl | constructor] | lia].
  intros n Hn. destruct (Hreg n Hn) as (r & Hget & Hhas).
  exists r. split; [done|]. split; [done|].
  intros d Hd. eapply rtc_r; [done|]. by exists r.
Qed.

Lemma planning_root_last recipes root plan :
  planning recipes root = Some (Returns plan) →
  ∃ recipe front,
    JsMap.get recipes root = Some recipe ∧ plan = front ++ [recipe].
Proof.
  intros Hplan.
  apply planning_returns in Hplan as (more & dequeued & Hlook & -> & _).
  apply Forall2_cons_inv_l in Hlook as (recipe & rest & Hget & _ & ->).
  by exists recipe, (rev rest).
Qed.

Lemma has_registered recipes key (recipe : Recipe) :
  JsMap.get recipes key = Some recipe →
  Recipe.name recipe = key →
  JsMap.has recipes (Recipe.name recipe) = true.
Proof. intros Hget ->. apply has_get. by eexists. Qed.

Ltac plan_step Hget Hhas Hdeps :=
  rewrite (plan_loop_step _ _ _ _ _ _ _ Hget Hhas), Hdeps;
  cbv zeta; vm_compute filter; cbn [app].

Lemma planning_diamond recipes a b c d :
  diamond recipes a b c d →
  planning recipes "a" = Some (Returns [d; c; b; a]) ∨
  planning recipes "a" = Some (Returns [d; b; c; a]).
Proof.
  intros (Ha & Hna & Hda & Hb & Hnb & Hdb & Hc & Hnc & Hdc & Hd & Hnd & Hdd).
  pose proof (has_registered _ _ _ Ha Hna) as Hha.
  pose proof (has_registered _ _ _ Hb Hnb) as Hhb.
  pose proof (has_registered _ _ _ Hc Hnc) as Hhc.
  pose proof (has_registered _ _ _ Hd Hnd) as Hhd.
  destruct Hda as [Hda|Hda]; [left | right]; apply (plan_loop_planning 4).
  - plan_step Ha Hha Hda. plan_step Hb Hhb Hdb.
    plan_step Hc Hhc Hdc. by plan_step Hd Hhd Hdd.
  - plan_step Ha Hha Hda. plan_step Hc Hhc Hdc.
    plan_step Hb Hhb Hdb. by plan_step Hd Hhd Hdd.
Qed.

(** In a registry keyed by name the check of line 54 is given a name that
    was found a moment before: it cannot fail, and the only error the loop
    can throw is the one of reading [name] off a lookup that found
    nothing. *)
Lemma plan_loop_throws fuel recipes visited queue plan e :
  keyed_by_name recipes →
  plan_loop fuel recipes visited queue plan = Some (Throws e) →
  e = TypeError "name".
Proof.
  intros Hkeyed. revert visited queue plan.
  induction fuel as [|fuel IH]; intros visited queue plan Hrun.
  - by destruct queue.
  - destruct queue as [|first queue]; [done|]. simpl in Hrun.
    destruct (JsMap.get recipes first) as [current|] eqn:Hget;
      [|by simplify_eq].
    pose proof (has_registered _ _ _ Hget (Hkeyed _ _ Hget)) as Hhas.
    unfold assertRecipeExists, assertModuleExists in Hrun.
    rewrite Hhas in Hrun. simpl in Hrun. eauto.
Qed.

(** A required name that the registry lacks makes planning throw. *)
Lemma planning_aborts recipes root name :
  keyed_by_name recipes →
  requires recipes root name →
  JsMap.get recipes name = None →
  planning recipes root = Some (Throws (TypeError "name")).
Proof.
  intros Hkeyed Hname Hnone.
  destruct (planning_total recipes root) as [[plan|e] Hplan].
  - destruct (planning_returns _ _ _ Hplan) as (more & found & Hlook & _ & Hexact & _).
    apply Hexact, list_elem_of_lookup in Hname as [i Hi].
    destruct (Forall2_lookup_l _ _ _ _ _ Hlook Hi) as (r & _ & Hget).
    simpl in Hget. congruence.
  - rewrite Hplan. by rewrite (plan_loop_throws _ _ _ _ _ _ Hkeyed Hplan).
Qed.

End PlanningFacts.

(** ** The executor *)

Section ExecutionFacts.

Context {any : Type} {Target : Type} `{Steps any}.

Abbreviation Recipe := (Recipe.t any Target).

Implicit Types (target : Target) (labels request_settings : JsMap.t any)
  (recipe : Recipe) (plan before after : list Recipe).

Lemma invoked_app (a b : list (Action any)) :
  invoked (a ++ b) = invoked a ++ invoked b.
Proof. apply omap_app. Qed.

Lemma emitted_app (a b : list (Action any)) :
  emitted (a ++ b) = emitted a ++ emitted b.
Proof. apply omap_app. Qed.

Lemma invoked_Yield (events : list (Event any)) :
  invoked (map Yield events) = [].
Proof. by induction events. Qed.

Lemma emitted_Yield (events : list (Event any)) :
  emitted (map Yield events) = events.
Proof.
  induction events; [done|]. simpl. unfold emitted in *. simpl. by f_equal.
Qed.

(** The loop body in terms of what it is seen to do. *)
Lemma execute_recipe_eq target request_settings labels recipe :
  execute_recipe target request_settings labels recipe =
  let preserves := drives target request_settings labels recipe in
  let driven :=
    map Yield (begins recipe).1 ++ Preserve (Recipe.name recipe) ::
    map Yield (Recipe.yielded preserves) in
  match Recipe.completion preserves with
  | inr error =>
      {| trace := driven ++ map Yield (fails recipe preserves error).1;
         final_labels := Recipe.labels_after preserves;
         halt := Stopped Failed |}
  | inl label =>
      {| trace := driven ++ map Yield (succeeds recipe preserves label).1;
         final_labels :=
           if decide (state (succeeds recipe preserves label).2 ≠ Done)
           then Recipe.labels_after preserves
           else JsMap.set (Recipe.labels_after preserves)
                          (Recipe.name recipe) label;
         halt :=
           if decide (state (succeeds recipe preserves label).2 ≠ Done)
           then Stopped NotDone
           else Completed |}
  end.
Proof.
  unfold execute_recipe, drives, succeeds, fails, begins.
  destruct (begin _ _) as [begun controller]. simpl.
  destruct (Recipe.completion _) as [label|error].
  - destruct (succeed _ _ _) as [succeeded controller']. simpl.
    by case_decide.
  - by destruct (fail _ _ _).
Qed.

Lemma execute_recipe_observed target request_settings labels recipe :
  let preserves := drives target request_settings labels recipe in
  let body := execute_recipe target request_settings labels recipe in
  invoked (trace body) = [Recipe.name recipe] ∧
  emitted (trace body) =
    (begins recipe).1 ++ Recipe.yielded preserves ++
    match Recipe.completion preserves with
    | inl label => (succeeds recipe preserves label).1
    | inr error => (fails recipe preserves error).1
    end.
Proof.
  intros preserves body. subst body. rewrite execute_recipe_eq. cbv zeta.
  fold preserves.
  destruct (Recipe.completion preserves); simpl;
    rewrite !invoked_app, !emitted_app; simpl;
    change (invoked (Preserve ?n :: ?l)) with (n :: invoked l);
    change (emitted (Preserve ?n :: ?l)) with (emitted l);
    by rewrite !invoked_Yield, !emitted_Yield, <- ?app_assoc.
Qed.

(** Running a plan in two parts. *)
Lemma execution_app target request_settings labels before after :
  execution target request_settings labels (before ++ after) =
  let reached := execution target request_settings labels before in
  match halt reached with
  | Completed =>
      let rest :=
        execution target request_settings (final_labels reached) after in
      {| trace := trace reached ++ trace rest;
         final_labels := final_labels rest;
         halt := halt rest |}
  | Stopped _ => reached
  end.
Proof.
  revert labels. induction before as [|recipe before IH]; intros labels.
  - simpl. by destruct (execution target request_settings labels after).
  - simpl.
    destruct (halt (execute_recipe target request_settings labels recipe))
      eqn:Hbody; [|by rewrite Hbody].
    rewrite IH. simpl.
    destruct (halt (execution target request_settings _ before)) eqn:Hhalt;
      simpl; by rewrite ?Hhalt, ?app_assoc.
Qed.

(** A plan that runs to its end has driven every entry; if its recipes
    only read the labels, it holds a label under every entry's name. *)
Lemma execution_completed target request_settings labels plan :
  let run := execution target request_settings labels plan in
  halt run = Completed →
  invoked (trace run) = map Recipe.name plan ∧
  (Forall reads_labels_only plan →
   (∀ name, name ∈ JsMap.keys (final_labels run) ↔
            name ∈ JsMap.keys labels ∨ name ∈ map Recipe.name plan) ∧
   (NoDup (JsMap.keys labels) → NoDup (JsMap.keys (final_labels run)))).
Proof.
  revert labels. induction plan as [|recipe plan IH]; intros labels.
  - simpl. intros _. split; [done|]. intros _. split; [|done].
    intros name. rewrite elem_of_nil. tauto.
  - cbv zeta. simpl.
    destruct (execute_recipe_observed target request_settings labels recipe)
      as [Hinvoked _].
    pose proof (execute_recipe_eq target request_settings labels recipe)
      as Hbody. cbv zeta in Hbody.
    set (preserves := drives target request_settings labels recipe) in *.
    set (body := execute_recipe target request_settings labels recipe) in *.
    destruct (halt body) eqn:Hhalt; simpl; [|by rewrite Hhalt].
    intros Hrest. destruct (IH _ Hrest) as [Hinv Hlabels].
    split; [by rewrite invoked_app, Hinvoked, Hinv|].
    intros Hreads. apply Forall_cons in Hreads as [Hread Hreads].
    destruct (Hlabels Hreads) as [Hkeys Hnodup].
    assert (∃ label,
              final_labels body = JsMap.set labels (Recipe.name recipe) label)
      as [label Hset].
    { rewrite Hbody in Hhalt |- *.
      destruct (Recipe.completion preserves) as [label|]; [|done].
      simpl in *. case_decide; [done|]. exists label.
      subst preserves. unfold drives. by rewrite Hread. }
    rewrite Hset in *. split.
    + intros name. rewrite Hkeys, keys_set, elem_of_cons. tauto.
    + intros Hnd. by apply Hnodup, NoDup_keys_set.
Qed.

(** The last entry of a plan that ran to its end was confirmed [Done]. *)
Lemma execution_completed_last target request_settings labels front recipe :
  let run := execution target request_settings labels (front ++ [recipe]) in
  halt run = Completed →
  ∃ earlier reached label,
    let preserves := drives target request_settings reached recipe in
    Recipe.completion preserves = inl label ∧
    state (succeeds recipe preserves label).2 = Done ∧
    emitted (trace run) = earlier ++ (succeeds recipe preserves label).1.
Proof.
  intros run. subst run. rewrite execution_app. cbv zeta.
  set (reached := execution target request_settings labels front).
  destruct (halt reached) eqn:Hreached; [|by rewrite Hreached].
  simpl.
  destruct (execute_recipe_observed target request_settings
              (final_labels reached) recipe) as [_ Hemit].
  pose proof (execute_recipe_eq target request_settings
                (final_labels reached) recipe) as Hbody.
  cbv zeta in Hemit, Hbody.
  set (preserves := drives target request_settings (final_labels reached) recipe)
    in *.
  set (body := execute_recipe target request_settings (final_labels reached)
                 recipe) in *.
  destruct (halt body) eqn:Hhalt; simpl; [|by rewrite Hhalt].
  intros _. rewrite Hbody in Hhalt.
  destruct (Recipe.completion preserves) as [label|error] eqn:Hdone;
    [|done]. simpl in Hhalt.
  destruct (decide (state (succeeds recipe preserves label).2 ≠ Done))
    as [Hstate|Hstate]; [done|].
  exists (emitted (trace reached) ++ (begins recipe).1 ++
          Recipe.yielded preserves), (final_labels reached), label.
  fold preserves. split; [done|]. split.
  - by destruct (decide (state (succeeds recipe preserves label).2 = Done)).
  - rewrite app_nil_r, emitted_app, Hemit. by rewrite <- !app_assoc.
Qed.

(** A plan that stops at an entry, after the entries before it completed. *)
Lemma execution_stops target request_settings labels before recipe after stop :
  let reached := execution target request_settings labels before in
  let body :=
    execute_recipe target request_settings (final_labels reached) recipe in
  halt reached = Completed →
  halt body = Stopped stop →
  execution target request_settings labels (before ++ recipe :: after) =
  {| trace := trace reached ++ trace body;
     final_labels := final_labels body;
     halt := Stopped stop |}.
Proof.
  intros reached body Hreached Hbody.
  rewrite execution_app. cbv zeta. fold reached. rewrite Hreached.
  simpl. fold body. by rewrite !Hbody.
Qed.

End ExecutionFacts.

(** ** Whole runs *)

Section PreserveFacts.

Context {any : Type} {Target : Type} `{Steps any}.

Abbreviation Recipe := (Recipe.t any Target).

Implicit Types (options : PreserveOptions any Target) (run : Run any).

Lemma default_settings_loader (request : Request.t any) :
  Request.loader (default_settings request) = Request.loader request.
Proof. unfold default_settings. by destruct (Request.settings request). Qed.

Lemma default_settings_recipe (request : Request.t any) :
  Request.recipe (default_settings request) = Request.recipe request.
Proof. unfold default_settings. by destruct (Request.settings request). Qed.

(** [preserve] has a result on every input: planning is given iterations
    enough, and the interfaces take [load] and the recipes' computations to
    come to an end. *)
Lemma preserve_total options : ∃ run, preserve options = Some run.
Proof.
  unfold preserve.
  destruct (assertLoaderExists _ _); [|by eexists].
  destruct (Request.settings _); try by eexists.
  destruct (JsMap.get (loaders options) _); [|by eexists].
  destruct (Loader.load _ _); [|by eexists].
  destruct (JsMap.get (recipes options) _) as [root|]; [|by eexists].
  destruct (planning_total (recipes options) (Recipe.name root))
    as [[plan|e] ->]; by eexists.
Qed.

Lemma preserve_request options run :
  preserve options = Some run →
  request_after run = default_settings (request options).
Proof.
  unfold preserve. intros Hrun.
  repeat match type of Hrun with
         | match ?scrutinee with _ => _ end = _ => destruct scrutinee
         end; by simplify_eq.
Qed.

(** A run whose body returns has got through setup, loading and planning,
    and is the execution of the plan after the one [load] call. *)
Lemma preserve_returns options run halted :
  preserve options = Some run →
  outcome run = Returns halted →
  ∃ loader settings target root plan,
    Request.settings (default_settings (request options)) = Defined settings ∧
    JsMap.get (loaders options) (Request.loader (request options)) = Some loader ∧
    Loader.load loader (JsMap.get settings (Request.loader (request options)))
      = inl target ∧
    JsMap.get (recipes options) (Request.recipe (request options)) = Some root ∧
    planning (recipes options) (Recipe.name root) = Some (Returns plan) ∧
    let executed := execution target settings JsMap.empty plan in
    actions run =
      Load (Request.loader (request options))
           (JsMap.get settings (Request.loader (request options)))
      :: trace executed ∧
    labels_after run = final_labels executed ∧
    halted = halt executed.
Proof.
  unfold preserve.
  rewrite default_settings_loader, default_settings_recipe.
  intros Hrun Hout.
  destruct (assertLoaderExists _ _); [|by simplify_eq].
  destruct (Request.settings _) as [| |settings]; try by simplify_eq.
  destruct (JsMap.get (loaders options) _) as [loader|] eqn:Hloader;
    [|by simplify_eq].
  destruct (Loader.load _ _) as [target|] eqn:Hload; [|by simplify_eq].
  destruct (JsMap.get (recipes options) _) as [root|] eqn:Hroot;
    [|by simplify_eq].
  destruct (planning _ _) as [[plan|e]|] eqn:Hplan; simplify_eq/=.
  by exists loader, settings, target, root, plan.
Qed.

End PreserveFacts.

(** ** The claims of the specification *)

Section Claims.

Context {any : Type} {Target : Type} `{Steps any}.

Abbreviation Recipe := (Recipe.t any Target).

Implicit Types (options : PreserveOptions any Target) (run : Run any)
  (recipes : JsMap.t Recipe) (plan before after : list Recipe)
  (target : Target) (labels request_settings : JsMap.t any)
  (recipe : Recipe).

(** C7. Whenever planning returns a plan, its last entry is the recipe
    registered under the root name; and in a registry holding the diamond
    (a depends on b and c, b and c both depend on d) planning from a
    returns d first, then b and c in the reverse of the order in which a
    lists them, then a. *)
Theorem root_is_planned_last :
  (∀ recipes root plan,
     planning recipes root = Some (Returns plan) →
     ∃ recipe front,
       JsMap.get recipes root = Some recipe ∧ plan = front ++ [recipe]) ∧
  (∀ recipes a b c d,
     diamond recipes a b c d →
     planning recipes "a" = Some (Returns [d; c; b; a]) ∨
     planning recipes "a" = Some (Returns [d; b; c; a])).
Proof. split; [apply planning_root_last | apply planning_diamond]. Qed.

(** C9, as amended. When every name required by the root is registered
    and some required recipe lists the root as a dependency, planning
    returns a plan that holds the root recipe at least twice, once of
    them last; and an execution of that plan that completes has invoked
    every entry of the plan, the root at each of its positions. *)
Theorem root_is_planned_twice recipes root :
  (∀ name, requires recipes root name → registered recipes name) →
  (∃ name, requires recipes root name ∧ depends recipes name root) →
  ∃ plan recipe front middle,
    planning recipes root = Some (Returns plan) ∧
    JsMap.get recipes root = Some recipe ∧
    plan = front ++ recipe :: middle ++ [recipe] ∧
    ∀ target request_settings labels,
      let run := execution target request_settings labels plan in
      halt run = Completed →
      invoked (trace run) = map Recipe.name plan.
Proof.
  intros Hreg Hlists.
  destruct (planning_succeeds recipes root Hreg) as [plan Hplan].
  destruct (planning_returns _ _ _ Hplan)
    as (more & dequeued & Hlook & -> & _ & Hmore & _).
  apply Hmore, list_elem_of_split in Hlists as (more1 & more2 & ->).
  apply Forall2_cons_inv_l in Hlook as (recipe & rest & Hget & Hlook & ->).
  apply Forall2_app_inv_l in Hlook as (found1 & rest' & _ & Hlook & ->).
  apply Forall2_cons_inv_l in Hlook as (recipe' & found2 & Hget' & _ & ->).
  simplify_eq.
  exists (rev (recipe :: found1 ++ recipe :: found2)), recipe,
    (rev found2), (rev found1).
  split; [done|]. split; [done|]. split.
  - simpl. rewrite rev_app_distr. simpl. by rewrite <- !app_assoc.
  - intros target request_settings labels run Hhalt.
    by apply execution_completed.
Qed.

(** C5. When the plan is executed up to position k without a stop and the
    recipe at position k raises an error, the run stops by the [return]
    of the [catch] block: the last events emitted are the controller's
    fail events for that recipe, the computations invoked are those of
    positions 0 to k, and the executor sets no label: [labels] is as the
    recipe's computation left it, which for recipes that only read it is
    what it was when position k was reached, its keys being those it
    started with and the names of the positions before k. *)
Theorem failure_halts target request_settings labels before recipe after error :
  let reached := execution target request_settings labels before in
  let preserves :=
    drives target request_settings (final_labels reached) recipe in
  halt reached = Completed →
  Recipe.completion preserves = inr error →
  let run :=
    execution target request_settings labels (before ++ recipe :: after) in
  halt run = Stopped Failed ∧
  emitted (trace run) =
    emitted (trace reached) ++ (begins recipe).1 ++
    Recipe.yielded preserves ++ (fails recipe preserves error).1 ∧
  invoked (trace run) = map Recipe.name (before ++ [recipe]) ∧
  final_labels run = Recipe.labels_after preserves ∧
  (Forall reads_labels_only (before ++ [recipe]) →
   final_labels run = final_labels reached ∧
   ∀ name, name ∈ JsMap.keys (final_labels run) ↔
           name ∈ JsMap.keys labels ∨ name ∈ map Recipe.name before).
Proof.
  intros reached preserves Hreached Hraised run.
  destruct (execution_completed target request_settings labels before Hreached)
    as [Hinvoked Hlabels].
  destruct (execute_recipe_observed target request_settings
              (final_labels reached) recipe) as [Hinv Hemit].
  pose proof (execute_recipe_eq target request_settings
                (final_labels reached) recipe) as Hbody.
  cbv zeta in Hinv, Hemit, Hbody. fold reached preserves in Hinv, Hemit, Hbody.
  rewrite Hraised in Hemit, Hbody.
  subst run.
  rewrite (execution_stops _ _ _ _ _ _ Failed Hreached)
    by (fold reached; by rewrite Hbody).
  fold reached. simpl. rewrite invoked_app, emitted_app, map_app.
  fold reached in Hinvoked. rewrite Hinvoked, Hinv, Hemit, Hbody. simpl.
  split; [done|]. split; [done|]. split; [done|]. split; [done|].
  intros Hreads. apply Forall_app in Hreads as [Hbefore Hrecipe].
  apply Forall_cons in Hrecipe as [Hrecipe _].
  destruct (Hlabels Hbefore) as [Hkeys _].
  subst preserves. unfold drives. rewrite !Hrecipe. simpl.
  split; [done | apply Hkeys].
Qed.

(** C4. When the plan is executed up to position k without a stop, the
    recipe at position k completes with a label, and the controller is not
    [Done] once its succeed events are out, the run stops by the [return]
    under the [Done] test: the events of the run end with the controller's
    own succeed events (the executor adds none), the computations invoked are
    those of positions 0 to k, and the executor sets no label: [labels] is as
    the recipe's computation left it, which for recipes that only read it
    is what it was when position k was reached. *)
Theorem unfinished_halts target request_settings labels before recipe after label :
  let reached := execution target request_settings labels before in
  let preserves :=
    drives target request_settings (final_labels reached) recipe in
  halt reached = Completed →
  Recipe.completion preserves = inl label →
  state (succeeds recipe preserves label).2 ≠ Done →
  let run :=
    execution target request_settings labels (before ++ recipe :: after) in
  halt run = Stopped NotDone ∧
  emitted (trace run) =
    emitted (trace reached) ++ (begins recipe).1 ++
    Recipe.yielded preserves ++ (succeeds recipe preserves label).1 ∧
  invoked (trace run) = map Recipe.name (before ++ [recipe]) ∧
  final_labels run = Recipe.labels_after preserves ∧
  (Forall reads_labels_only (before ++ [recipe]) →
   final_labels run = final_labels reached ∧
   ∀ name, name ∈ JsMap.keys (final_labels run) ↔
           name ∈ JsMap.keys labels ∨ name ∈ map Recipe.name before).
Proof.
  intros reached preserves Hreached Hlabel Hstate run.
  destruct (execution_completed target request_settings labels before Hreached)
    as [Hinvoked Hlabels].
  destruct (execute_recipe_observed target request_settings
              (final_labels reached) recipe) as [Hinv Hemit].
  pose proof (execute_recipe_eq target request_settings
                (final_labels reached) recipe) as Hbody.
  cbv zeta in Hinv, Hemit, Hbody. fold reached preserves in Hinv, Hemit, Hbody.
  rewrite Hlabel in Hemit, Hbody.
  rewrite !(decide_True _ _ Hstate) in Hbody.
  subst run.
  rewrite (execution_stops _ _ _ _ _ _ NotDone Hreached)
    by (fold reached; by rewrite Hbody).
  fold reached. simpl. rewrite invoked_app, emitted_app, map_app.
  fold reached in Hinvoked. rewrite Hinvoked, Hinv, Hemit, Hbody. simpl.
  split; [done|]. split; [done|]. split; [done|]. split; [done|].
  intros Hreads. apply Forall_app in Hreads as [Hbefore Hrecipe].
  apply Forall_cons in Hrecipe as [Hrecipe _].
  destruct (Hlabels Hbefore) as [Hkeys _].
  subst preserves. unfold drives. rewrite !Hrecipe. simpl.
  split; [done | apply Hkeys].
Qed.


(** C8, as amended. Every run leaves the request as it was given whenever
    the request has a [settings] property; a request without one leaves the
    run with [settings] set to a new empty map, its [loader] and [recipe]
    untouched. *)
Theorem request_after_run options :
  ∃ run,
    preserve options = Some run ∧
    Request.loader (request_after run) = Request.loader (request options) ∧
    Request.recipe (request_after run) = Request.recipe (request options) ∧
    (Request.settings (request options) ≠ Missing →
     request_after run = request options) ∧
    (Request.settings (request options) = Missing →
     Request.settings (request_after run) = Defined JsMap.empty).
Proof.
  destruct (preserve_total options) as [run Hrun]. exists run.
  split; [done|]. rewrite (preserve_request _ _ Hrun).
  rewrite default_settings_loader, default_settings_recipe.
  unfold default_settings.
  destruct (Request.settings (request options)) eqn:Hsettings; simpl;
    by rewrite ?Hsettings.
Qed.

(** C10. When the requested loader is registered and its [load] rejects,
    the run throws the rejection after that one call: it has emitted no
    event and has called no recipe. *)
Theorem load_error_propagates options loader settings reason :
  JsMap.get (loaders options) (Request.loader (request options)) = Some loader →
  Request.settings (default_settings (request options)) = Defined settings →
  Loader.load loader (JsMap.get settings (Request.loader (request options)))
    = inr reason →
  ∃ run,
    preserve options = Some run ∧
    outcome run = Throws (Rejected reason) ∧
    emitted (actions run) = [] ∧
    invoked (actions run) = [] ∧
    actions run =
      [Load (Request.loader (request options))
            (JsMap.get settings (Request.loader (request options)))].
Proof.
  intros Hloader Hsettings Hload. unfold preserve.
  rewrite default_settings_loader, Hsettings, Hloader, Hload.
  unfold assertLoaderExists, assertModuleExists.
  assert (JsMap.has (loaders options) (Request.loader (request options)) = true)
    as -> by (apply has_get; by eexists).
  simpl. by eexists.
Qed.

(** ** Further properties *)

(** X1. The planning loop terminates: from any set of visited names, any
    queue and any plan so far, and whatever the registry, cyclic or not, it
    comes to its end, by an empty queue or by a throw, within as many
    iterations as the queue is long plus, for every dependency name of the
    registry not yet visited, one more than the number of dependencies the
    registry lists; a larger bound gives the same result. *)
Theorem planning_loop_ends recipes (visited : gset string)
    (queue : list string) plan :
  ∃ result,
    ∀ fuel,
      plan_measure recipes visited queue < fuel →
      plan_loop fuel recipes visited queue plan = Some result.
Proof.
  destruct (plan_loop_terminates (S (plan_measure recipes visited queue))
              recipes visited queue plan) as [result Hrun]; [lia|].
  exists result. intros fuel Hfuel.
  apply (plan_loop_fuel (S (plan_measure recipes visited queue))); [done|lia].
Qed.

(** X2. What planning gets right about duplicates: when every required
    name is registered, no required recipe lists a name twice, and the
    root is on no dependency cycle, the names dequeued, whose recipes make
    up the plan in reverse, are exactly the required ones, each once. *)
Theorem planning_exactly_once recipes root :
  (∀ name, requires recipes root name → registered recipes name) →
  (∀ name recipe,
     requires recipes root name → JsMap.get recipes name = Some recipe →
     NoDup (Recipe.dependencies recipe)) →
  ¬ (∃ name, requires recipes root name ∧ depends recipes name root) →
  ∃ plan names,
    planning recipes root = Some (Returns plan) ∧
    looked_up recipes names (rev plan) ∧
    NoDup names ∧
    ∀ name, name ∈ names ↔ requires recipes root name.
Proof.
  intros Hreg Hdeps Hacyclic.
  destruct (planning_succeeds recipes root Hreg) as [plan Hplan].
  destruct (planning_returns _ _ _ Hplan)
    as (more & dequeued & Hlook & -> & Hexact & Hmore & Hnodup).
  exists (rev dequeued), (root :: more).
  split; [done|]. split; [by rewrite rev_involutive|]. split; [|done].
  apply NoDup_cons. split.
  - intros Hin. by apply Hacyclic, Hmore.
  - apply Hnodup. intros r Hr.
    apply list_elem_of_lookup in Hr as [i Hi].
    destruct (Forall2_lookup_r _ _ _ _ _ Hlook Hi) as (n & Hn & Hget).
    apply (Hdeps n); [|done]. apply Hexact. by eapply list_elem_of_lookup_2.
Qed.

(** X3. In a registry keyed by name the recipe check of line 54 cannot
    fail: whatever planning throws is the [TypeError] of reading [name] off
    a lookup that found nothing, never the "Unknown recipe" error. *)
Theorem recipe_check_never_fails recipes root e :
  keyed_by_name recipes →
  planning recipes root = Some (Throws e) →
  e = TypeError "name".
Proof. intros Hkeyed Hplan. by eapply plan_loop_throws. Qed.

(** X4. When the requested loader is registered and its [load] resolves
    but the requested root recipe is not registered, the run calls [load]
    and then throws the [TypeError] of reading [name] off [undefined]; it
    has emitted no event. *)
Theorem unknown_root_is_met_after_load options loader settings target :
  JsMap.get (loaders options) (Request.loader (request options)) = Some loader →
  Request.settings (default_settings (request options)) = Defined settings →
  Loader.load loader (JsMap.get settings (Request.loader (request options)))
    = inl target →
  JsMap.get (recipes options) (Request.recipe (request options)) = None →
  ∃ run,
    preserve options = Some run ∧
    outcome run = Throws (TypeError "name") ∧
    emitted (actions run) = [] ∧
    actions run =
      [Load (Request.loader (request options))
            (JsMap.get settings (Request.loader (request options)))].
Proof.
  intros Hloader Hsettings Hload Hroot. unfold preserve.
  rewrite default_settings_loader, default_settings_recipe.
  rewrite Hsettings, Hloader, Hload, Hroot.
  unfold assertLoaderExists, assertModuleExists.
  assert (JsMap.has (loaders options) (Request.loader (request options)) = true)
    as -> by (apply has_get; by eexists).
  simpl. by eexists.
Qed.

(** X5. In a registry keyed by name, a direct or transitive dependency of
    the requested root that is not registered aborts the run during
    planning, after the [load] call: no recipe is invoked and no event is
    emitted.  The error thrown is the [TypeError] of reading [name] off
    [undefined]. *)
Theorem unknown_dependency_aborts options loader settings target root name :
  JsMap.get (loaders options) (Request.loader (request options)) = Some loader →
  Request.settings (default_settings (request options)) = Defined settings →
  Loader.load loader (JsMap.get settings (Request.loader (request options)))
    = inl target →
  JsMap.get (recipes options) (Request.recipe (request options)) = Some root →
  keyed_by_name (recipes options) →
  requires (recipes options) (Request.recipe (request options)) name →
  JsMap.get (recipes options) name = None →
  ∃ run,
    preserve options = Some run ∧
    outcome run = Throws (TypeError "name") ∧
    emitted (actions run) = [] ∧
    invoked (actions run) = [] ∧
    actions run =
      [Load (Request.loader (request options))
            (JsMap.get settings (Request.loader (request options)))].
Proof.
  intros Hloader Hsettings Hload Hroot Hkeyed Hname Hnone. unfold preserve.
  rewrite default_settings_loader, default_settings_recipe.
  rewrite Hsettings, Hloader, Hload, Hroot, (Hkeyed _ _ Hroot).
  rewrite (planning_aborts _ _ _ Hkeyed Hname Hnone).
  unfold assertLoaderExists, assertModuleExists.
  assert (JsMap.has (loaders options) (Request.loader (request options)) = true)
    as -> by (apply has_get; by eexists).
  simpl. by eexists.
Qed.

End Claims.

(** ** The claims at the example plugins *)

Import Examples.

Lemma lifecycle_succeed_emits_Succeed : succeed_emits_Succeed (H := lifecycle).
Proof.
  split; [by intros scope|].
  intros scope controller label. destruct controller; simpl; try done.
  intros _ _. by exists [].
Qed.

Lemma returning_behaves name dependencies label :
  leaves_open (returning name dependencies label) ∧
  reads_labels_only (returning name dependencies label).
Proof. by split; intros context. Qed.

Lemma registry_keyed_by_name (recipes : list Recipe) :
  keyed_by_name (registry recipes).
Proof.
  intros key recipe. induction recipes as [|r recipes IH]; simpl; [done|].
  case_decide; [|done]. intros; by simplify_eq.
Qed.

Lemma scenario_behaves key recipe :
  JsMap.get (recipes scenario) key = Some recipe →
  leaves_open recipe ∧ reads_labels_only recipe.
Proof.
  simpl. repeat case_decide; intros; simplify_eq; apply returning_behaves.
Qed.

Lemma scenario_requires name :
  requires (recipes scenario) "B" name → name = "B" ∨ name = "A".
Proof.
  intros Hname. unfold requires in Hname.
  revert name Hname.
  apply (rtc_ind_r (λ name, name = "B" ∨ name = "A")); [by left|].
  intros n d _ (r & Hget & Hd) [->| ->]; simpl in Hget; simplify_eq.
  - right. by apply list_elem_of_singleton in Hd.
  - by apply elem_of_nil in Hd.
Qed.

Lemma loop_requires name : requires loop "a" name → name = "a".
Proof.
  intros Hname. unfold requires in Hname.
  revert name Hname. apply (rtc_ind_r (λ name, name = "a")); [done|].
  intros n d _ (r & Hget & Hd) ->. simpl in Hget. simplify_eq.
  by apply list_elem_of_singleton in Hd.
Qed.

Lemma diamond_registry_is_diamond :
  diamond diamond_registry
    (returning "a" ["b"; "c"] "la") (returning "b" ["d"] "lb")
    (returning "c" ["d"] "lc") (returning "d" [] "ld").
Proof. repeat split; by (reflexivity || left). Qed.

(** C1, on the code: the request names the unregistered recipe "C". The
    run calls the loader and then throws the [TypeError] of reading [name]
    off [undefined]; no check has named "C" or listed "A" and "B", as the
    check of the recipe registry would have. *)
Theorem unknown_root_recipe_throws_TypeError :
  preserve unknown_root =
  Some {| request_after :=
            {| Request.loader := "L"; Request.recipe := "C";
               Request.settings := Defined [] |};
          actions := [Load "L" None];
          labels_after := [];
          outcome := Throws (TypeError "name") |} ∧
  assertRecipeExists (any := string) "C" (recipes unknown_root) =
  Throws (JsError "Unknown recipe with name C. Possible choices: [A, B]").
Proof. vm_compute. done. Qed.

(** C2, on the code: B depends on A and A is not registered. Planning
    throws the [TypeError] of reading [name] off [undefined]; the check that
    would have reported "A" among the choices is never reached with it. *)
Theorem unknown_dependency_throws_TypeError :
  planning (recipes unknown_dependency) "B" = Some (Throws (TypeError "name")) ∧
  preserve unknown_dependency =
  Some {| request_after :=
            {| Request.loader := "L"; Request.recipe := "B";
               Request.settings := Defined [] |};
          actions := [Load "L" None];
          labels_after := [];
          outcome := Throws (TypeError "name") |} ∧
  assertRecipeExists (any := string) "A" (recipes unknown_dependency) =
  Throws (JsError "Unknown recipe with name A. Possible choices: [B]").
Proof. vm_compute. done. Qed.

(** C3, on the code: B lists A twice, the graph is acyclic and every name
    is registered; the plan holds A twice and the run drives it twice. *)
Theorem repeated_dependency_is_planned_twice :
  ∃ plan run,
    planning (recipes repeated_dependency) "B" = Some (Returns plan) ∧
    map Recipe.name plan = ["A"; "A"; "B"] ∧
    preserve repeated_dependency = Some run ∧
    invoked (actions run) = ["A"; "A"; "B"].
Proof. do 2 eexists. repeat split; vm_compute; reflexivity. Qed.

(** C4, at an instance: A completes, B returns a label with a step still
    open, C is never reached. *)
Lemma unfinished_halts_witness :
  halt (execution "T" [] [] [A]) = Completed ∧
  let run :=
    execution "T" [] []
      ([A] ++ unfinished "B" ["A"] "labelB" :: [returning "C" ["B"] "labelC"]) in
  halt run = Stopped NotDone ∧
  emitted (trace run) =
    [Begin ["A"]; Log ["A"] "working"; Succeed ["A"] "labelA";
     Begin ["B"]; DeclareStep ["B"] "upload"] ∧
  invoked (trace run) = ["A"; "B"] ∧
  final_labels run = [("A", "labelA")].
Proof.
  split; [reflexivity|].
  destruct (unfinished_halts "T" [] [] [A] (unfinished "B" ["A"] "labelB")
              [returning "C" ["B"] "labelC"] "labelB")
    as (Hhalt & Hemitted & Hinvoked & Hlabels & _);
    [reflexivity | reflexivity | vm_compute; discriminate |].
  exact (conj Hhalt (conj Hemitted (conj Hinvoked Hlabels))).
Defined.

(** C5, at an instance: A completes, B raises, C is never reached. *)
Lemma failure_halts_witness :
  halt (execution "T" [] [] [A]) = Completed ∧
  let run :=
    execution "T" [] []
      ([A] ++ raising "B" ["A"] "boom" :: [returning "C" ["B"] "labelC"]) in
  halt run = Stopped Failed ∧
  emitted (trace run) =
    [Begin ["A"]; Log ["A"] "working"; Succeed ["A"] "labelA";
     Begin ["B"]; Log ["B"] "working"; Fail ["B"] "boom"] ∧
  invoked (trace run) = ["A"; "B"] ∧
  final_labels run = [("A", "labelA")].
Proof.
  split; [reflexivity|].
  destruct (failure_halts "T" [] [] [A] (raising "B" ["A"] "boom")
              [returning "C" ["B"] "labelC"] "boom")
    as (Hhalt & Hemitted & Hinvoked & Hlabels & _);
    [reflexivity | reflexivity |].
  exact (conj Hhalt (conj Hemitted (conj Hinvoked Hlabels))).
Defined.


(** C7, at the diamond. *)
Lemma root_is_planned_last_witness :
  (∃ recipe front,
     JsMap.get diamond_registry "a" = Some recipe ∧
     [returning "d" [] "ld"; returning "c" ["d"] "lc";
      returning "b" ["d"] "lb"; returning "a" ["b"; "c"] "la"]
     = front ++ [recipe]) ∧
  (planning diamond_registry "a" =
     Some (Returns [returning "d" [] "ld"; returning "c" ["d"] "lc";
                    returning "b" ["d"] "lb"; returning "a" ["b"; "c"] "la"]) ∨
   planning diamond_registry "a" =
     Some (Returns [returning "d" [] "ld"; returning "b" ["d"] "lb";
                    returning "c" ["d"] "lc"; returning "a" ["b"; "c"] "la"])).
Proof.
  split.
  - apply (proj1 root_is_planned_last diamond_registry "a").
    vm_compute. reflexivity.
  - apply (proj2 root_is_planned_last), diamond_registry_is_diamond.
Defined.

(** C8: the request of the scenario has no [settings]; after the run it
    has. *)
Lemma request_is_updated :
  ∃ run, preserve scenario = Some run ∧ request_after run ≠ request scenario.
Proof. exists scenario_run. split; [vm_compute; reflexivity | discriminate]. Qed.

(** C8 as amended, at the scenario. *)
Lemma request_after_run_witness :
  ∃ run,
    preserve scenario = Some run ∧
    Request.loader (request_after run) = "L" ∧
    Request.recipe (request_after run) = "B" ∧
    (Request.settings (request scenario) ≠ Missing →
     request_after run = request scenario) ∧
    (Request.settings (request scenario) = Missing →
     Request.settings (request_after run) = Defined JsMap.empty).
Proof. apply (request_after_run scenario). Defined.

(** C9: two registries in which a recipe required by the root lists the
    root.  In the first, planning meets the unregistered "x" before it meets
    "b" and throws: there is no plan.  In the second the root is planned
    twice and raises at its first position: its computation is invoked
    once. *)
Lemma root_not_planned_twice :
  ((∃ name, requires dangling_cycle "a" name ∧ depends dangling_cycle name "a") ∧
   planning dangling_cycle "a" = Some (Throws (TypeError "name"))) ∧
  ((∃ name, requires raising_loop "a" name ∧ depends raising_loop name "a") ∧
   (∃ plan,
      planning raising_loop "a" = Some (Returns plan) ∧
      map Recipe.name plan = ["a"; "a"] ∧
      invoked (trace (execution "T" [] [] plan)) = ["a"])).
Proof.
  split; split.
  - exists "b". split.
    + apply rtc_once. eexists. split; [reflexivity|]. right; left.
    + eexists. split; [reflexivity|]. left.
  - vm_compute. reflexivity.
  - exists "a". split; [apply rtc_refl|].
    eexists. split; [reflexivity|]. left.
  - eexists. split; [vm_compute; reflexivity|]. split; reflexivity.
Qed.

(** C9 as amended, at the registry whose only recipe depends on itself. *)
Lemma root_is_planned_twice_witness :
  ∃ plan recipe front middle,
    planning loop "a" = Some (Returns plan) ∧
    JsMap.get loop "a" = Some recipe ∧
    plan = front ++ recipe :: middle ++ [recipe] ∧
    ∀ target request_settings labels,
      let run := execution target request_settings labels plan in
      halt run = Completed →
      invoked (trace run) = map Recipe.name plan.
Proof.
  apply (root_is_planned_twice loop "a").
  - intros name Hname. apply loop_requires in Hname as ->.
    eexists. split; reflexivity.
  - exists "a". split; [apply rtc_refl|].
    eexists. split; [reflexivity|]. left.
Defined.

(** C10, at the scenario with a loader that rejects. *)
Lemma load_error_propagates_witness :
  ∃ run,
    preserve rejected_load = Some run ∧
    outcome run = Throws (Rejected "offline") ∧
    emitted (actions run) = [] ∧
    invoked (actions run) = [] ∧
    actions run = [Load "L" None].
Proof.
  apply (load_error_propagates rejected_load (rejecting "offline") []);
    reflexivity.
Defined.

(** X2, at the scenario: B and A are planned once each. *)
Lemma planning_exactly_once_witness :
  ∃ plan names,
    planning (recipes scenario) "B" = Some (Returns plan) ∧
    looked_up (recipes scenario) names (rev plan) ∧
    NoDup names ∧
    ∀ name, name ∈ names ↔ requires (recipes scenario) "B" name.
Proof.
  apply (planning_exactly_once (recipes scenario) "B").
  - intros name Hname. apply scenario_requires in Hname as [->| ->];
      eexists; split; reflexivity.
  - intros name recipe Hname Hget.
    apply scenario_requires in Hname as [->| ->]; simpl in Hget;
      simplify_eq; simpl; [apply NoDup_singleton | apply NoDup_nil_2].
  - intros (name & Hname & recipe & Hget & Hin).
    apply scenario_requires in Hname as [->| ->]; simpl in Hget;
      simplify_eq; simpl in Hin.
    + by apply list_elem_of_singleton in Hin.
    + by apply elem_of_nil in Hin.
Defined.

(** X3, at the registry that lacks the dependency A of B. *)
Lemma recipe_check_never_fails_witness :
  planning (recipes unknown_dependency) "B" = Some (Throws (TypeError "name")) ∧
  TypeError (any := string) "name" = TypeError "name".
Proof.
  split; [vm_compute; reflexivity|].
  apply (recipe_check_never_fails (recipes unknown_dependency) "B").
  - apply (registry_keyed_by_name [B]).
  - vm_compute. reflexivity.
Defined.

(** X4, at the request for the unregistered "C". *)
Lemma unknown_root_is_met_after_load_witness :
  JsMap.get (recipes unknown_root) "C" = None ∧
  ∃ run,
    preserve unknown_root = Some run ∧
    outcome run = Throws (TypeError "name") ∧
    emitted (actions run) = [] ∧
    actions run = [Load "L" None].
Proof.
  split; [reflexivity|].
  apply (unknown_root_is_met_after_load unknown_root (resolving "T") [] "T");
    reflexivity.
Defined.

(** X5, at the registry that lacks the dependency A of B. *)
Lemma unknown_dependency_aborts_witness :
  requires (recipes unknown_dependency) "B" "A" ∧
  JsMap.get (recipes unknown_dependency) "A" = None ∧
  ∃ run,
    preserve unknown_dependency = Some run ∧
    outcome run = Throws (TypeError "name") ∧
    emitted (actions run) = [] ∧
    invoked (actions run) = [] ∧
    actions run = [Load "L" None].
Proof.
  assert (requires (recipes unknown_dependency) "B" "A") as Hrequired.
  { apply rtc_once. exists B. split; [reflexivity | left]. }
  split; [exact Hrequired|]. split; [reflexivity|].
  apply (unknown_dependency_aborts unknown_dependency (resolving "T") [] "T"
           B "A");
    [reflexivity | reflexivity | reflexivity | reflexivity
    | apply (registry_keyed_by_name [B]) | exact Hrequired | reflexivity].
Defined.

(** * More of the code *)

(** ** Maps: what [set] does to [get] and to the order of keys *)

Section JsMapSet.

Context {V : Type}.
Implicit Types (m : JsMap.t V) (k : string).

Lemma get_set_eq m k v : JsMap.get (JsMap.set m k v) k = Some v.
Proof.
  induction m as [|[k' v'] m IH]; simpl.
  - by rewrite decide_True.
  - case_decide; simpl; [by rewrite decide_True|]. by rewrite decide_False.
Qed.

Lemma get_set_ne m k k' v :
  k ≠ k' → JsMap.get (JsMap.set m k v) k' = JsMap.get m k'.
Proof.
  intros Hne. induction m as [|[k0 v0] m IH]; simpl.
  - by rewrite decide_False.
  - destruct (decide (k0 = k)) as [->|Hk0]; simpl.
    + by rewrite !decide_False.
    + by rewrite IH.
Qed.

Lemma keys_set_fresh m k v :
  k ∉ JsMap.keys m → JsMap.keys (JsMap.set m k v) = JsMap.keys m ++ [k].
Proof.
  unfold JsMap.keys. induction m as [|[k' v'] m IH]; simpl; [done|].
  intros Hfresh. apply not_elem_of_cons in Hfresh as [Hne Hfresh].
  rewrite decide_False by done. simpl. by rewrite IH.
Qed.

End JsMapSet.

(** ** The planner: the order of the plan, and the check that can fail *)

Section MorePlanning.

Context {any : Type} {Target : Type} `{Steps any}.

Abbreviation Recipe := (Recipe.t any Target).

Implicit Types (recipes : JsMap.t Recipe) (visited : gset string)
  (queue : list string) (plan : list Recipe).

(** Before anything is visited the filter of line 61 keeps the whole
    list, repeats included. *)
Lemma filter_unvisited_empty visited (names : list string) :
  visited = ∅ → filter (λ d, d ∉ visited) names = names.
Proof.
  intros ->. induction names as [|n names IH]; [done|].
  rewrite filter_cons_True by apply not_elem_of_empty. by rewrite IH.
Qed.

(** An iteration that is followed by a returned plan has found its recipe
    and passed the check. *)
Lemma plan_loop_first fuel recipes visited first queue plan result :
  plan_loop (S fuel) recipes visited (first :: queue) plan
    = Some (Returns result) →
  ∃ current,
    JsMap.get recipes first = Some current ∧
    JsMap.has recipes (Recipe.name current) = true ∧
    plan_loop fuel recipes
      (list_to_set (filter (λ d, d ∉ visited) (Recipe.dependencies current))
         ∪ visited)
      (queue ++ filter (λ d, d ∉ visited) (Recipe.dependencies current))
      (current :: plan) = Some (Returns result).
Proof.
  intros Hrun.
  destruct (JsMap.get recipes first) as [current|] eqn:Hget;
    [|by simpl in Hrun; rewrite Hget in Hrun].
  destruct (JsMap.has recipes (Recipe.name current)) eqn:Hhas.
  - exists current. split; [done|]. split; [done|].
    by rewrite (plan_loop_step _ _ _ _ _ _ _ Hget Hhas) in Hrun.
  - simpl in Hrun. rewrite Hget in Hrun.
    unfold assertRecipeExists, assertModuleExists in Hrun.
    by rewrite Hhas in Hrun.
Qed.

(** X15. The plan is in reverse breadth-first order: whenever planning
    returns a plan, the recipes of the root's dependency list, as listed
    (repeats included), stand in reverse order right before the root, which
    is last. *)
Theorem dependencies_are_planned_next_to_the_root recipes root plan recipe :
  planning recipes root = Some (Returns plan) →
  JsMap.get recipes root = Some recipe →
  ∃ front found,
    looked_up recipes (Recipe.dependencies recipe) found ∧
    plan = front ++ rev found ++ [recipe].
Proof.
  intros Hplan Hget. unfold planning in Hplan.
  apply plan_loop_first in Hplan as (current & Hget' & _ & Hrest).
  assert (current = recipe) as -> by congruence.
  rewrite filter_unvisited_empty in Hrest by done. cbn [app] in Hrest.
  apply plan_loop_returns in Hrest
    as (more & dequeued & Hlook & -> & _).
  apply Forall2_app_inv_l in Hlook as (found & rest & Hfound & _ & ->).
  exists (rev rest), found. split; [done|].
  by rewrite rev_app_distr, <- app_assoc.
Qed.

(** X16. The plan need not put a dependency before its dependent: in any
    registry where the root lists a recipe and then a second one that
    depends on the first, the dependent is planned first, so that it is
    driven before the recipe whose label it would read. *)
Theorem dependent_is_planned_before_its_dependency
    recipes (root dependency dependent : Recipe) :
  triangle recipes root dependency dependent →
  depends recipes (Recipe.name dependent) (Recipe.name dependency) ∧
  planning recipes (Recipe.name root)
    = Some (Returns [dependent; dependency; root]).
Proof.
  intros (Hroot & Hlists & Hfirst & Hnone & Hsecond & Hone).
  split.
  { exists dependent. split; [done|]. rewrite Hone. left. }
  pose proof (has_registered _ _ _ Hroot eq_refl) as Hhas_root.
  pose proof (has_registered _ _ _ Hfirst eq_refl) as Hhas_first.
  pose proof (has_registered _ _ _ Hsecond eq_refl) as Hhas_second.
  apply (plan_loop_planning 3).
  rewrite (plan_loop_step _ _ _ _ _ _ _ Hroot Hhas_root), Hlists. cbv zeta.
  rewrite filter_unvisited_empty by done. cbn [app].
  rewrite (plan_loop_step _ _ _ _ _ _ _ Hfirst Hhas_first), Hnone. cbv zeta.
  rewrite filter_nil. cbn [app].
  rewrite (plan_loop_step _ _ _ _ _ _ _ Hsecond Hhas_second), Hone. cbv zeta.
  rewrite filter_cons_False, filter_nil; [done|].
  intros Hfresh. apply Hfresh.
  apply elem_of_union. right. apply elem_of_union. left.
  apply elem_of_list_to_set. left.
Qed.

(** The check of line 54 fails at the first name of the queue whose recipe
    bears a name that is no key, once the names before it have passed. *)
Lemma plan_loop_refuses fuel recipes visited earlier dependency later plan
    current :
  Forall (registered recipes) earlier →
  JsMap.get recipes dependency = Some current →
  JsMap.has recipes (Recipe.name current) = false →
  length earlier < fuel →
  plan_loop fuel recipes visited (earlier ++ dependency :: later) plan =
  Some (Throws (JsError
    (("Unknown recipe with name " +:+ Recipe.name current +:+ ". ") +:+
     ("Possible choices: [" +:+
        String.concat ", " (JsMap.keys recipes) +:+ "]")))).
Proof.
  intros Hearlier Hget Hhas.
  revert fuel visited later plan.
  induction Hearlier as [|first earlier (recipe & Hfirst & Hpass) _ IH];
    intros fuel visited later plan Hfuel;
    (destruct fuel as [|fuel]; [simpl in Hfuel; lia|]).
  - simpl. rewrite Hget.
    unfold assertRecipeExists, assertModuleExists. by rewrite Hhas.
  - cbn [app].
    rewrite (plan_loop_step _ _ _ _ _ _ _ Hfirst Hpass). cbv zeta.
    rewrite <- app_assoc. cbn [app].
    apply IH. simpl in Hfuel. lia.
Qed.

End MorePlanning.

(** ** The executor: order, composition, settings and labels *)

Section MoreExecution.

Context {any : Type} {Target : Type} `{Steps any}.

Abbreviation Recipe := (Recipe.t any Target).

Implicit Types (target : Target) (labels request_settings : JsMap.t any)
  (recipe : Recipe) (plan before after : list Recipe).

Lemma loads_app (a b : list (Action any)) : loads (a ++ b) = loads a ++ loads b.
Proof. apply omap_app. Qed.

Lemma loads_Yield (events : list (Event any)) : loads (map Yield events) = [].
Proof. by induction events. Qed.

(** The loop never calls a loader. *)
Lemma loads_execution target request_settings labels plan :
  loads (trace (execution target request_settings labels plan)) = [].
Proof.
  revert labels. induction plan as [|recipe plan IH]; intros labels; [done|].
  simpl.
  assert (loads (trace (execute_recipe target request_settings labels recipe))
          = []) as Hbody.
  { rewrite execute_recipe_eq. cbv zeta.
    destruct (Recipe.completion _); simpl;
      rewrite !loads_app; simpl;
      change (loads (Preserve ?n :: ?l)) with (loads l);
      by rewrite !loads_Yield. }
  destruct (halt (execute_recipe target request_settings labels recipe));
    simpl; [|done].
  by rewrite loads_app, Hbody, IH.
Qed.

(** What the loop body does to the labels when the recipe only reads
    them. *)
Lemma execute_recipe_labels target request_settings labels recipe :
  reads_labels_only recipe →
  let body := execute_recipe target request_settings labels recipe in
  match halt body with
  | Stopped _ => final_labels body = labels
  | Completed =>
      ∃ label,
        Recipe.completion (drives target request_settings labels recipe)
          = inl label ∧
        final_labels body = JsMap.set labels (Recipe.name recipe) label
  end.
Proof.
  intros Hreads body. subst body. rewrite execute_recipe_eq. cbv zeta.
  assert (Recipe.labels_after (drives target request_settings labels recipe)
          = labels) as Hkeep by exact (Hreads _).
  rewrite !Hkeep.
  destruct (Recipe.completion _) as [label|error] eqn:Hdone; simpl; [|done].
  case_decide; [done|]. by exists label.
Qed.

(** X9. Whatever happens, the computations invoked are those of the first
    n entries of the plan, in plan order, once each: all of them when the
    loop completes, at least one and at most all when it stops. *)
Theorem invoked_is_a_prefix_of_the_plan target request_settings labels plan :
  let run := execution target request_settings labels plan in
  ∃ n,
    invoked (trace run) = map Recipe.name (take n plan) ∧
    match halt run with
    | Completed => n = length plan
    | Stopped _ => 0 < n ≤ length plan
    end.
Proof.
  revert labels. induction plan as [|recipe plan IH]; intros labels.
  - by exists 0.
  - cbv zeta. simpl.
    destruct (execute_recipe_observed target request_settings labels recipe)
      as [Hinvoked _].
    set (body := execute_recipe target request_settings labels recipe) in *.
    destruct (halt body) eqn:Hhalt; simpl.
    + destruct (IH (final_labels body)) as (n & Hn & Hlen).
      exists (S n). rewrite invoked_app, Hinvoked, Hn. split; [done|].
      destruct (halt (execution _ _ _ plan)); simpl; lia.
    + exists 1. rewrite Hhalt, Hinvoked. split; [done|]. simpl. lia.
Qed.

(** X10. Executing a plan is executing its first part and then, only if
    that part completed, the rest from the labels it left; when the first
    part stops, the rest of the plan has no influence on the run. *)
Theorem execution_splits target request_settings labels before after :
  let reached := execution target request_settings labels before in
  let run := execution target request_settings labels (before ++ after) in
  (halt reached = Completed →
   let rest :=
     execution target request_settings (final_labels reached) after in
   trace run = trace reached ++ trace rest ∧
   final_labels run = final_labels rest ∧
   halt run = halt rest) ∧
  (∀ stop, halt reached = Stopped stop → run = reached).
Proof.
  intros reached run. subst run. rewrite execution_app. cbv zeta.
  fold reached. split.
  - by intros ->.
  - by intros stop ->.
Qed.

(** Of the request's settings the loop reads the entries under the names
    of the plan's entries, and no other. *)
Lemma execution_settings_agree target request_settings request_settings'
    labels plan :
  (∀ recipe, recipe ∈ plan →
     JsMap.get request_settings (Recipe.name recipe) =
     JsMap.get request_settings' (Recipe.name recipe)) →
  execution target request_settings labels plan =
  execution target request_settings' labels plan.
Proof.
  revert labels. induction plan as [|recipe plan IH]; intros labels Hagree;
    [done|].
  simpl.
  assert (execute_recipe target request_settings labels recipe =
          execute_recipe target request_settings' labels recipe) as ->.
  { unfold execute_recipe. rewrite (Hagree recipe) by left. done. }
  destruct (halt (execute_recipe target request_settings' labels recipe));
    [|done].
  rewrite IH; [done|]. intros r Hr. apply Hagree. by right.
Qed.

(** The loop body starts with the controller's begin events, the call of
    the recipe, and what the recipe yields. *)
Lemma execute_recipe_starts target request_settings labels recipe :
  ∃ tail,
    trace (execute_recipe target request_settings labels recipe) =
    map Yield (begins recipe).1 ++ Preserve (Recipe.name recipe) ::
    map Yield (Recipe.yielded (drives target request_settings labels recipe))
    ++ tail.
Proof.
  rewrite execute_recipe_eq. cbv zeta.
  destruct (Recipe.completion _) as [label|error];
    [destruct (decide _)|]; simpl; eexists; by rewrite <- app_assoc.
Qed.

(** The loop starts with its first body. *)
Lemma execution_starts target request_settings labels recipe after :
  ∃ rest,
    trace (execution target request_settings labels (recipe :: after)) =
    trace (execute_recipe target request_settings labels recipe) ++ rest.
Proof.
  simpl.
  destruct (halt (execute_recipe target request_settings labels recipe));
    simpl; [by eexists | exists []; by rewrite app_nil_r].
Qed.

(** X11. When the loop gets to a plan entry, it calls the recipe's
    [preserve] on the loaded target, the labels as the entries before it
    left them, and the settings stored in the request under the recipe's own
    name ([undefined] when there are none): what the run does next is to
    emit the controller's begin events and then what the recipe yields on
    exactly these.  Nothing else of the request's settings is read: the
    same run results from any settings that agree on the names of the
    plan's entries. *)
Theorem recipe_is_given_its_own_settings target request_settings labels
    before recipe after :
  let reached := execution target request_settings labels before in
  let run :=
    execution target request_settings labels (before ++ recipe :: after) in
  let given :=
    {| Recipe.target := target;
       Recipe.labels := final_labels reached;
       Recipe.settings := JsMap.get request_settings (Recipe.name recipe);
       Recipe.scope := [Recipe.name recipe];
       Recipe.controller := (begins recipe).2 |} in
  halt reached = Completed →
  (∃ later,
     trace run =
     trace reached ++ map Yield (begins recipe).1 ++
     Preserve (Recipe.name recipe) ::
     map Yield (Recipe.yielded (Recipe.preserve recipe given)) ++ later) ∧
  (∀ request_settings',
     (∀ entry, entry ∈ before ++ recipe :: after →
        JsMap.get request_settings (Recipe.name entry) =
        JsMap.get request_settings' (Recipe.name entry)) →
     execution target request_settings' labels (before ++ recipe :: after)
     = run).
Proof.
  intros reached run given Hreached. split.
  - subst run. rewrite execution_app. cbv zeta. fold reached.
    rewrite Hreached. cbn [trace].
    destruct (execution_starts target request_settings (final_labels reached)
                recipe after) as [rest ->].
    destruct (execute_recipe_starts target request_settings
                (final_labels reached) recipe) as [tail ->].
    exists (tail ++ rest).
    change (drives target request_settings (final_labels reached) recipe)
      with (Recipe.preserve recipe given).
    f_equal. by rewrite <- app_assoc, <- app_comm_cons, <- app_assoc.
  - intros request_settings' Hagree. subst run. symmetry.
    by apply execution_settings_agree.
Qed.

(** The loop leaves alone the labels of names that no plan entry bears. *)
Lemma execution_frame target request_settings labels plan name :
  Forall reads_labels_only plan →
  name ∉ map Recipe.name plan →
  JsMap.get (final_labels (execution target request_settings labels plan)) name
  = JsMap.get labels name.
Proof.
  revert labels. induction plan as [|recipe plan IH]; intros labels Hreads Hname;
    [done|].
  apply Forall_cons in Hreads as [Hread Hreads].
  simpl in Hname. apply not_elem_of_cons in Hname as [Hne Hname].
  simpl.
  pose proof (execute_recipe_labels target request_settings labels recipe Hread)
    as Hbody. cbv zeta in Hbody.
  destruct (halt (execute_recipe target request_settings labels recipe));
    simpl.
  - destruct Hbody as (label & _ & Hset).
    rewrite IH by done. rewrite Hset. by apply get_set_ne.
  - by rewrite Hbody.
Qed.

(** X12. The loop writes to [labels] under the names of the plan's
    entries only: with recipes that only read the labels, the value under
    any other name is at the end what it was at the start, whether the loop
    completes or stops. *)
Theorem other_labels_are_untouched target request_settings labels plan name :
  Forall reads_labels_only plan →
  name ∉ map Recipe.name plan →
  JsMap.get (final_labels (execution target request_settings labels plan)) name
  = JsMap.get labels name.
Proof. apply execution_frame. Qed.

(** A plan that completes has completed every part of it. *)
Lemma execution_completed_before target request_settings labels before after :
  halt (execution target request_settings labels (before ++ after)) = Completed →
  halt (execution target request_settings labels before) = Completed.
Proof.
  rewrite execution_app. cbv zeta.
  destruct (halt (execution target request_settings labels before)) eqn:Hhalt;
    [done|]. by rewrite Hhalt.
Qed.

(** X13. A label is recorded under its recipe's name and kept: in a loop
    that completes, with recipes that only read the labels, the label that
    the recipe at a position returned is what [labels] holds under its name
    at the end, provided no later entry bears the same name. *)
Theorem returned_label_is_kept target request_settings labels
    before recipe after label :
  let reached := execution target request_settings labels before in
  let run :=
    execution target request_settings labels (before ++ recipe :: after) in
  halt run = Completed →
  Forall reads_labels_only (before ++ recipe :: after) →
  Recipe.name recipe ∉ map Recipe.name after →
  Recipe.completion
    (drives target request_settings (final_labels reached) recipe)
    = inl label →
  JsMap.get (final_labels run) (Recipe.name recipe) = Some label.
Proof.
  intros reached run Hhalt Hreads Hlater Hlabel. subst run.
  apply Forall_app in Hreads as [_ Hreads].
  apply Forall_cons in Hreads as [Hread Hreads].
  pose proof (execution_completed_before _ _ _ _ _ Hhalt) as Hreached.
  rewrite execution_app in Hhalt |- *. cbv zeta in Hhalt |- *.
  fold reached in Hhalt, Hreached |- *. rewrite Hreached in Hhalt |- *.
  simpl in Hhalt |- *.
  pose proof (execute_recipe_labels target request_settings
                (final_labels reached) recipe Hread) as Hbody.
  cbv zeta in Hbody.
  destruct (halt (execute_recipe target request_settings
                    (final_labels reached) recipe)) eqn:Hstep;
    simpl in Hhalt |- *; [|by rewrite Hstep in Hhalt].
  destruct Hbody as (label' & Hlabel' & Hset).
  assert (label' = label) as -> by congruence.
  rewrite execution_frame by done.
  rewrite Hset. apply get_set_eq.
Qed.

(** X14. [labels] grows in plan order: in a loop that completes, with
    recipes that only read the labels, when the names of the plan's entries
    are distinct and none is a key yet, the keys at the end are the keys at
    the start followed by the names of the plan's entries, in plan order. *)
Theorem labels_are_in_plan_order target request_settings labels plan :
  let run := execution target request_settings labels plan in
  halt run = Completed →
  Forall reads_labels_only plan →
  NoDup (JsMap.keys labels ++ map Recipe.name plan) →
  JsMap.keys (final_labels run) = JsMap.keys labels ++ map Recipe.name plan.
Proof.
  revert labels. induction plan as [|recipe plan IH];
    intros labels run Hhalt Hreads Hnodup; subst run.
  - simpl. by rewrite app_nil_r.
  - apply Forall_cons in Hreads as [Hread Hreads].
    simpl in Hhalt |- *.
    pose proof (execute_recipe_labels target request_settings labels recipe
                  Hread) as Hbody. cbv zeta in Hbody.
    destruct (halt (execute_recipe target request_settings labels recipe))
      eqn:Hstep; simpl in Hhalt |- *; [|by rewrite Hstep in Hhalt].
    destruct Hbody as (label & _ & Hset).
    assert (Recipe.name recipe ∉ JsMap.keys labels) as Hfresh.
    { apply NoDup_app in Hnodup as (_ & Hdisjoint & _).
      intros Hin. apply (Hdisjoint _ Hin). left. }
    rewrite IH; [| done | done |];
      rewrite Hset, keys_set_fresh by done.
    + by rewrite <- app_assoc.
    + by rewrite <- app_assoc.
Qed.

End MoreExecution.

(** ** Whole runs: what is refused before anything is called *)

Section MorePreserve.

Context {any : Type} {Target : Type} `{Steps any}.

Abbreviation Recipe := (Recipe.t any Target).

Implicit Types (options : PreserveOptions any Target) (run : Run any).

(** X6. A request for a loader that is not registered is refused before
    anything is called: the run makes no [load] call, emits no event, and
    throws the error of the loader check, which names the loader and lists
    the registered loaders in registration order.  The request has had its
    missing [settings] filled in all the same. *)
Theorem unknown_loader_is_refused options :
  JsMap.has (loaders options) (Request.loader (request options)) = false →
  preserve options =
  Some {| request_after := default_settings (request options);
          actions := [];
          labels_after := JsMap.empty;
          outcome :=
            Throws (JsError
              (("Unknown loader with name " +:+
                  Request.loader (request options) +:+ ". ") +:+
               ("Possible choices: [" +:+
                  String.concat ", " (JsMap.keys (loaders options)) +:+
                  "]"))) |}.
Proof.
  intros Hhas. unfold preserve.
  unfold assertLoaderExists, assertModuleExists.
  by rewrite default_settings_loader, Hhas.
Qed.

(** X7. A request whose [settings] property is present but [undefined] is
    not given the default: with a registered loader, the run throws the
    [TypeError] of calling [get] on [undefined] before [load] is called,
    and leaves the request as it was. *)
Theorem undefined_settings_are_not_defaulted options :
  Request.settings (request options) = Undefined →
  JsMap.has (loaders options) (Request.loader (request options)) = true →
  preserve options =
  Some {| request_after := request options;
          actions := [];
          labels_after := JsMap.empty;
          outcome := Throws (TypeError "get") |}.
Proof.
  intros Hsettings Hhas. unfold preserve, default_settings.
  unfold assertLoaderExists, assertModuleExists.
  by rewrite Hsettings, Hhas, Hsettings.
Qed.

(** X8. A run calls [load] at most once, on the requested loader with the
    settings stored under the loader's name, and before anything else: its
    actions are either none, and then it throws, or that one call followed
    by actions among which there is no [load]. *)
Theorem load_is_called_at_most_once options :
  ∃ run,
    preserve options = Some run ∧
    ((actions run = [] ∧ ∃ e, outcome run = Throws e) ∨
     ∃ settings rest,
       Request.settings (default_settings (request options))
         = Defined settings ∧
       actions run =
         Load (Request.loader (request options))
              (JsMap.get settings (Request.loader (request options)))
         :: rest ∧
       loads rest = []).
Proof.
  unfold preserve. rewrite default_settings_loader.
  destruct (assertLoaderExists _ _) as [|e]; [|by eexists; eauto].
  destruct (Request.settings (default_settings (request options)))
    as [| |settings]; try by (eexists; eauto).
  destruct (JsMap.get (loaders options) _) as [loader|];
    [|by eexists; eauto].
  destruct (Loader.load _ _) as [target|reason];
    [|by eexists; split; [done|]; right; exists settings, []].
  destruct (JsMap.get (recipes options) _) as [root|];
    [|by eexists; split; [done|]; right; exists settings, []].
  destruct (planning_total (recipes options) (Recipe.name root))
    as [[plan|e] ->].
  - eexists; split; [done|]. right. eexists settings, _.
    split; [done|]. split; [done|]. apply loads_execution.
  - by eexists; split; [done|]; right; exists settings, [].
Qed.

(** X17. The recipe check of line 54 is given the [name] field of the
    recipe found, not the key it was found under, and so it fails for a
    registered recipe whose own name is no key.  With a loader that
    resolves and a root registered under its own name, when the first of
    the root's dependencies to fail the check does so in this way, the run
    calls [load], invokes no recipe, emits no event, and throws the error
    of the check, which names that field and lists the keys in
    registration order. *)
Theorem misnamed_dependency_is_refused options loader settings target root
    earlier dependency later current :
  JsMap.get (loaders options) (Request.loader (request options)) = Some loader →
  Request.settings (default_settings (request options)) = Defined settings →
  Loader.load loader (JsMap.get settings (Request.loader (request options)))
    = inl target →
  JsMap.get (recipes options) (Request.recipe (request options)) = Some root →
  JsMap.get (recipes options) (Recipe.name root) = Some root →
  Recipe.dependencies root = earlier ++ dependency :: later →
  Forall (registered (recipes options)) earlier →
  JsMap.get (recipes options) dependency = Some current →
  JsMap.has (recipes options) (Recipe.name current) = false →
  preserve options =
  Some {| request_after := default_settings (request options);
          actions :=
            [Load (Request.loader (request options))
                  (JsMap.get settings (Request.loader (request options)))];
          labels_after := JsMap.empty;
          outcome :=
            Throws (JsError
              (("Unknown recipe with name " +:+ Recipe.name current +:+ ". ")
               +:+
               ("Possible choices: [" +:+
                  String.concat ", " (JsMap.keys (recipes options)) +:+
                  "]"))) |}.
Proof.
  intros Hloader Hsettings Hload Hroot Hnamed Hlists Hearlier Hget Hhas.
  pose proof (has_registered _ _ _ Hnamed eq_refl) as Hhas_root.
  assert (planning (recipes options) (Recipe.name root) =
          Some (Throws (JsError
            (("Unknown recipe with name " +:+ Recipe.name current +:+ ". ")
             +:+
             ("Possible choices: [" +:+
                String.concat ", " (JsMap.keys (recipes options)) +:+
                "]"))))) as Hplan.
  { apply (plan_loop_planning (S (S (length earlier)))).
    rewrite (plan_loop_step _ _ _ _ _ _ _ Hnamed Hhas_root), Hlists. cbv zeta.
    rewrite filter_unvisited_empty by done. cbn [app].
    apply plan_loop_refuses; [done | done | done | lia]. }
  unfold preserve.
  rewrite default_settings_loader, default_settings_recipe.
  rewrite Hsettings, Hloader, Hload, Hroot, Hplan.
  unfold assertLoaderExists, assertModuleExists.
  assert (JsMap.has (loaders options) (Request.loader (request options)) = true)
    as -> by (apply has_get; by eexists).
  done.
Qed.

End MorePreserve.

(** ** These properties at the example plugins *)

Import Edges.

Lemma not_in_A_B (name : string) :
  name ≠ "A" → name ≠ "B" → name ∉ ["A"; "B"].
Proof.
  intros HA HB Hin.
  apply elem_of_cons in Hin as [->|Hin]; [done|].
  by apply list_elem_of_singleton in Hin.
Qed.

Lemma A_B_read_labels_only : Forall reads_labels_only [A; B].
Proof. repeat constructor; apply returning_behaves. Qed.

(** X6, at the request for the unregistered loader "M". *)
Lemma unknown_loader_is_refused_witness :
  JsMap.has (loaders unknown_loader) "M" = false ∧
  preserve unknown_loader =
  Some {| request_after :=
            {| Request.loader := "M"; Request.recipe := "B";
               Request.settings := Defined [] |};
          actions := [];
          labels_after := [];
          outcome :=
            Throws (JsError
              "Unknown loader with name M. Possible choices: [L, K]") |}.
Proof.
  split; [reflexivity|].
  exact (unknown_loader_is_refused unknown_loader eq_refl).
Defined.

(** X7, at the request whose [settings] is [undefined]. *)
Lemma undefined_settings_are_not_defaulted_witness :
  Request.settings (request undefined_settings) = Undefined ∧
  preserve undefined_settings =
  Some {| request_after := request undefined_settings;
          actions := [];
          labels_after := [];
          outcome := Throws (TypeError "get") |}.
Proof.
  split; [reflexivity|].
  exact (undefined_settings_are_not_defaulted undefined_settings
           eq_refl eq_refl).
Defined.

(** X11: with settings for Z and for E, the recipe E is given those of
    E. *)
Lemma recipe_is_given_its_own_settings_witness :
  halt (execution "T" settings_of_Z_and_E [] [A]) = Completed ∧
  ∃ later,
    trace (execution "T" settings_of_Z_and_E [] ([A] ++ echoing "E" [] :: [B])) =
    trace (execution "T" settings_of_Z_and_E [] [A]) ++
    [Yield (Begin ["E"])] ++
    Preserve "E" :: [Yield (Log ["E"] "fast")] ++ later.
Proof.
  split; [reflexivity|].
  exact (proj1 (recipe_is_given_its_own_settings "T" settings_of_Z_and_E []
                  [A] (echoing "E" []) [B] eq_refl)).
Defined.

(** X12: a label under "Z" survives the execution of A and B. *)
Lemma other_labels_are_untouched_witness :
  JsMap.get (final_labels (execution "T" [] [("Z", "old")] [A; B])) "Z"
  = Some "old".
Proof.
  apply (other_labels_are_untouched "T" [] [("Z", "old")] [A; B] "Z").
  - apply A_B_read_labels_only.
  - by apply not_in_A_B.
Defined.

(** X13: the label of A is still there after B. *)
Lemma returned_label_is_kept_witness :
  halt (execution "T" [] [] ([] ++ A :: [B])) = Completed ∧
  JsMap.get (final_labels (execution "T" [] [] ([] ++ A :: [B]))) "A"
  = Some "labelA".
Proof.
  split; [reflexivity|].
  apply (returned_label_is_kept "T" [] [] [] A [B] "labelA").
  - reflexivity.
  - apply A_B_read_labels_only.
  - intros Hin. by apply list_elem_of_singleton in Hin.
  - reflexivity.
Defined.

(** X14: after A and B the keys are A, B. *)
Lemma labels_are_in_plan_order_witness :
  JsMap.keys (final_labels (execution "T" [] [] [A; B])) = ["A"; "B"].
Proof.
  apply (labels_are_in_plan_order "T" [] [] [A; B]).
  - reflexivity.
  - apply A_B_read_labels_only.
  - apply NoDup_cons. split; [|apply NoDup_singleton].
    intros Hin. by apply list_elem_of_singleton in Hin.
Defined.

(** X15, at the diamond: c and b, the reverse of a's list, stand right
    before a. *)
Lemma dependencies_are_planned_next_to_the_root_witness :
  ∃ front found,
    looked_up diamond_registry ["b"; "c"] found ∧
    [returning "d" [] "ld"; returning "c" ["d"] "lc";
     returning "b" ["d"] "lb"; returning "a" ["b"; "c"] "la"]
    = front ++ rev found ++ [returning "a" ["b"; "c"] "la"].
Proof.
  apply (dependencies_are_planned_next_to_the_root diamond_registry "a"
           [returning "d" [] "ld"; returning "c" ["d"] "lc";
            returning "b" ["d"] "lb"; returning "a" ["b"; "c"] "la"]
           (returning "a" ["b"; "c"] "la")).
  - vm_compute. reflexivity.
  - reflexivity.
Defined.

(** X16, at a, b and c: c, which depends on b, is planned before b. *)
Lemma dependent_is_planned_before_its_dependency_witness :
  depends triangle_registry "c" "b" ∧
  planning triangle_registry "a" =
  Some (Returns [returning "c" ["b"] "lc"; returning "b" [] "lb";
                 returning "a" ["b"; "c"] "la"]).
Proof.
  apply (dependent_is_planned_before_its_dependency triangle_registry
           (returning "a" ["b"; "c"] "la") (returning "b" [] "lb")
           (returning "c" ["b"] "lc")).
  repeat split; reflexivity.
Defined.

(** X17, at the root a whose dependency b holds a recipe named "zz". *)
Lemma misnamed_dependency_is_refused_witness :
  JsMap.get (recipes misnamed_dependency) "b" = Some (returning "zz" [] "lb") ∧
  JsMap.has (recipes misnamed_dependency) "zz" = false ∧
  preserve misnamed_dependency =
  Some {| request_after :=
            {| Request.loader := "L"; Request.recipe := "a";
               Request.settings := Defined [] |};
          actions := [Load "L" None];
          labels_after := [];
          outcome :=
            Throws (JsError
              "Unknown recipe with name zz. Possible choices: [a, b]") |}.
Proof.
  split; [reflexivity|]. split; [reflexivity|].
  exact (misnamed_dependency_is_refused misnamed_dependency (resolving "T") []
           "T" (returning "a" ["b"] "la") [] "b" [] (returning "zz" [] "lb")
           eq_refl eq_refl eq_refl eq_refl eq_refl eq_refl
           (Forall_nil_2 _) eq_refl eq_refl).
Defined.

